(** * Road-network dashboard (principal.py): pipeline model and properties

    The script loads two layers (roads, cantons), lets the user choose a
    road category, intersects the chosen roads with the cantons and
    aggregates length, area and density per canton.

    Modelling conventions.
    - A data frame is the list of its rows, in row order; a column is a
      record field.  [groupby] and [dissolve] produce one row per key, keys
      ascending, as pandas does with its default [sort=True].
    - Lengths, areas and densities are Python floats in the script.  Every
      finite float is a rational number, and the arithmetic on them is
      taken exact here ([Qc], canonical rationals, with Leibniz equality):
      no rounding, no infinities, no NaN.  An equality between sums
      below is an equality of these exact sums: the floats of the
      script agree with it up to the rounding of each addition.
    - Column values that are text (category, code, id, names) are strings,
      compared byte-wise, which on UTF-8 text is Python's code-point order.
    - The geometry engine (pyproj's geodesic area and length, the overlay's
      intersection, the dissolve's union) is not code of this script: it
      is a parameter of the model; where the winding of a polygon
      matters the engine comes with its sign convention ([Geod]). *)

From Stdlib Require Import List String Ascii Bool Arith ZArith QArith Qcanon Qcabs.
From Stdlib Require Import Lia Permutation Sorted.
From Stdlib Require OrderedTypeEx.
Import ListNotations.

Close Scope Qc_scope.
Close Scope Q_scope.
Local Open Scope string_scope.

(** ** Numbers *)

Abbreviation num := Qc (only parsing).

Definition of_Z (z : Z) : num := Q2Qc (inject_Z z).

(** [1e6] (m2 in a km2) and [1e3] (m in a km). *)
Definition m2_per_km2 : num := of_Z 1000000.
Definition m_per_km : num := of_Z 1000.

(** Boolean order on numbers. *)
Definition num_leb (x y : num) : bool := Qle_bool x y.

(** pandas' ['sum'] aggregation: the values added up in row order. *)
Definition sum (l : list num) : num := fold_left Qcplus l 0%Qc.

(** pandas' ['first'] aggregation: the value of the first row of the group. *)
Definition first {A : Type} (l : list A) : option A := hd_error l.

(** ** Geometries *)

Definition point := (num * num)%type.

Inductive Geometry : Type :=
| LineString (coords : list point)
| MultiLineString (lines : list (list point))
| Polygon (shell : list point) (holes : list (list point))
| MultiPolygon (polygons : list (list point * list (list point))).

(** The same geometry with every coordinate sequence walked backwards. *)
Definition reverse_winding (g : Geometry) : Geometry :=
  match g with
  | LineString cs => LineString (rev cs)
  | MultiLineString ls => MultiLineString (map (@rev point) ls)
  | Polygon sh hs => Polygon (rev sh) (map (@rev point) hs)
  | MultiPolygon ps =>
      MultiPolygon (map (fun p => (rev (fst p), map (@rev point) (snd p))) ps)
  end.


(** ** Text *)

(** [str.lower] on the ASCII letters; other bytes are left as they are
    (Python also lower-cases the cased letters outside ASCII).  The
    result goes into the headings only. *)
Definition lower_ascii (c : ascii) : ascii :=
  let n := nat_of_ascii c in
  if ((65 <=? n) && (n <=? 90))%nat then ascii_of_nat (n + 32) else c.

Fixpoint lower (s : string) : string :=
  match s with
  | EmptyString => EmptyString
  | String c s' => String (lower_ascii c) (lower s')
  end.

(** Order on (canton, categoria) keys: first component, then second. *)
Definition pair_leb (a b : string * string) : bool :=
  if (fst a =? fst b)%string then String.leb (snd a) (snd b)
  else String.leb (fst a) (fst b).

Definition pair_eqb (a b : string * string) : bool :=
  (fst a =? fst b)%string && (snd a =? snd b)%string.

(** ** Lists as columns *)

Section Columns.
Context {A : Type}.
Variable eqb : A -> A -> bool.
Variable leb : A -> A -> bool.

Definition mem (x : A) (l : list A) : bool := existsb (eqb x) l.

(** [Series.unique]: the distinct values, in order of first appearance. *)
Fixpoint unique_from (seen l : list A) : list A :=
  match l with
  | [] => []
  | x :: l' =>
      if mem x seen then unique_from seen l'
      else x :: unique_from (x :: seen) l'
  end.

Definition unique (l : list A) : list A := unique_from [] l.

(** A stable ascending sort ([list.sort], [sort_values], the key order
    of [groupby]): an element goes after the elements it is not below. *)
Fixpoint insert (x : A) (l : list A) : list A :=
  match l with
  | [] => [x]
  | y :: l' => if leb y x then y :: insert x l' else x :: y :: l'
  end.

Fixpoint sort_from (acc l : list A) : list A :=
  match l with
  | [] => acc
  | x :: l' => sort_from (insert x acc) l'
  end.

Definition sort (l : list A) : list A := sort_from [] l.

(** The order read as a relation. *)
Definition le (x y : A) : Prop := leb x y = true.
End Columns.

(** ** Groups of rows *)

Section Groups.
Context {R K : Type}.
Variable eqb : K -> K -> bool.
Variable leb : K -> K -> bool.
Variable key : R -> K.

(** The rows with key [k], in row order. *)
Definition group_of (k : K) (rows : list R) : list R :=
  filter (fun r => eqb (key r) k) rows.

(** The groups of a [groupby]: the keys ascending, each with its rows. *)
Definition groupby (rows : list R) : list (K * list R) :=
  map (fun k => (k, group_of k rows))
      (sort leb (unique eqb (map key rows))).

(** The ['sum'] of column [f] over the group of [k]. *)
Definition group_sum (f : R -> num) (k : K) (rows : list R) : num :=
  sum (map f (group_of k rows)).
End Groups.

(** ** Exceptions

    The script has no [try]: an exception raised by any statement ends the
    run there.  A computation that may raise returns [inl] of the
    exception, and the following statements are not evaluated. *)

Inductive exn : Type :=
| FileNotFoundError (path : string)   (* read_file: no such file *)
| DriverError (path : string)         (* read_file: content is not a layer *)
| KeyError (column : string)          (* .loc: column not in the frame *)
| AttributeError                      (* None.lower() *)
| TypeError                           (* geometry series / 1e3 *)
| ValueError.                         (* pivot: duplicate entries *)

Definition result (A : Type) : Type := (exn + A)%type.

Definition ret {A : Type} (a : A) : result A := inr a.
Definition raise {A : Type} (e : exn) : result A := inl e.

Definition bind {A B : Type} (m : result A) (k : A -> result B) : result B :=
  match m with
  | inl e => inl e
  | inr a => k a
  end.

Notation "x <- m ;; k" := (bind m (fun x => k))
  (at level 61, m at next level, right associativity).

(** ** Layers as read from disk *)

(** A layer: its coordinate reference system, the names of its attribute
    columns, and one record per feature (the attribute cells in column
    order, and the geometry). *)
Record layer : Type := mk_layer {
  crs : string;
  columns : list string;
  records : list (list string * Geometry)
}.

Inductive file : Type :=
| Unreadable                 (* bytes that do not parse as a layer *)
| GeoJSON (l : layer).

Definition filesystem := string -> option file.

(** [gpd.read_file]: raises when the path does not exist or the content
    does not parse; otherwise the layer, with the CRS the file records. *)
Definition read_file (fs : filesystem) (path : string) : result layer :=
  match fs path with
  | None => raise (FileNotFoundError path)
  | Some Unreadable => raise (DriverError path)
  | Some (GeoJSON l) => ret l
  end.

(** The CRS the page says the layers are in (line 48). *)
Definition crs_esperado := "EPSG:4326".

(** The same layer, and the same files, declaring the CRS [c] instead. *)
Definition with_crs (c : string) (l : layer) : layer :=
  {| crs := c; columns := columns l; records := records l |}.

Definition recode (c : string) (fs : filesystem) : filesystem :=
  fun path =>
    match fs path with
    | Some (GeoJSON l) => Some (GeoJSON (with_crs c l))
    | other => other
    end.


Fixpoint index_of (c : string) (cols : list string) : option nat :=
  match cols with
  | [] => None
  | c' :: cols' =>
      if (c =? c')%string then Some O
      else option_map S (index_of c cols')
  end.

(** The cell of column [c] in a record of a frame with columns [cols]. *)
Definition cell (cols : list string) (c : string) (cells : list string) : string :=
  match index_of c cols with
  | Some i => nth i cells ""
  | None => ""
  end.

(** The first of the wanted attribute columns that the frame lacks. *)
Fixpoint missing_column (want cols : list string) : option string :=
  match want with
  | [] => None
  | c :: want' =>
      match index_of c cols with
      | None => Some c
      | Some _ => missing_column want' cols
      end
  end.

(** [frame.loc[:, want + ['geometry']]]: the wanted columns, in the order
    asked; [KeyError] when one is not in the frame.  The geometry column
    is always there. *)
Definition loc (want : list string) (l : layer) : result layer :=
  match missing_column want (columns l) with
  | Some c => raise (KeyError c)
  | None =>
      ret {| crs := crs l;
             columns := want;
             records := map (fun r => (map (fun c => cell (columns l) c (fst r)) want,
                                       snd r))
                            (records l) |}
  end.

(** ** Typed rows *)

Module Via.
Record t : Type := mk {
  categoria : string;
  codigo : string;
  geometry : Geometry
}.
End Via.

Module Canton.
Record t : Type := mk {
  id : string;
  canton : string;
  provincia : string;
  geometry : Geometry;
  area : num                 (* km2 *)
}.
End Canton.

(** A row of the overlay: the attributes of the road and of the canton,
    and the clipped geometry. *)
Module Overlay.
Record t : Type := mk {
  categoria : string;
  codigo : string;
  id : string;
  canton : string;
  provincia : string;
  area : num;
  geometry : Geometry
}.
End Overlay.

(** A row of [cantones_vias] once the [longitud] column is added. *)
Module CantonVia.
Record t : Type := mk {
  row : Overlay.t;
  longitud : num             (* km *)
}.
End CantonVia.

(** A row of [por_categoria]. *)
Module PorCategoria.
Record t : Type := mk {
  canton : string;
  categoria : string;
  area : num;
  longitud : num
}.
End PorCategoria.

(** A row of the dissolve: [canton] is the index. *)
Module Dissolve.
Record t : Type := mk {
  canton : string;
  geometry : Geometry;
  id : string;
  area : num;
  longitud : num
}.
End Dissolve.

(** A row of [por_canton] once the [densidad] column is added. *)
Module PorCanton.
Record t : Type := mk {
  row : Dissolve.t;
  densidad : num
}.
End PorCanton.

(** A cell of the pivoted table. *)
Inductive valor : Type :=
| Num (x : num)
| NaN
| Text (s : string).

Module Tabla.
Record t : Type := mk {
  canton : string;
  valores : list valor;      (* one per category column *)
  densidad : num
}.
End Tabla.

(** A row of [top_15_por_categoria]: a row of [por_categoria] with the
    length of its canton from [top_15] in the column [longitud_canton]. *)
Module Barra.
Record t : Type := mk {
  fila : PorCategoria.t;
  longitud_canton : num
}.
End Barra.

(** ** A planar engine

    A small engine on plane coordinates, to run the pipeline on concrete
    maps: the area of a ring is the shoelace area (counter-clockwise
    positive), the length of a line is the sum of its horizontal and
    vertical runs, and a road is clipped to a canton by keeping its
    vertices inside the canton's bounding box.  On maps of axis-parallel
    rectangles crossed by axis-parallel roads that have a vertex on every
    border they cross, these are the true areas, lengths and clips. *)

Module Plano.

Definition cross (p q : point) : num :=
  (fst p * snd q - fst q * snd p)%Qc.

(** Twice the signed area swept from [prev] along [rest] and back to
    [start]. *)
Fixpoint sweep (start prev : point) (rest : list point) : num :=
  match rest with
  | [] => cross prev start
  | p :: rest' => (cross prev p + sweep start p rest')%Qc
  end.

Definition ring_area (r : list point) : num :=
  match r with
  | [] => 0%Qc
  | p :: ps => (sweep p p ps / of_Z 2)%Qc
  end.


Definition run (p q : point) : num :=
  (Qcabs (fst q - fst p) + Qcabs (snd q - snd p))%Qc.

Fixpoint path_length (l : list point) : num :=
  match l with
  | p :: ((q :: _) as l') => (run p q + path_length l')%Qc
  | _ => 0%Qc
  end.

Definition polygon_area (p : list point * list (list point)) : num :=
  fold_left Qcplus (map ring_area (snd p)) (ring_area (fst p)).

Definition geometry_area_perimeter (g : Geometry) : num * num :=
  match g with
  | LineString cs => (ring_area cs, path_length cs)
  | MultiLineString ls => (sum (map ring_area ls), sum (map path_length ls))
  | Polygon sh hs => (polygon_area (sh, hs), path_length sh)
  | MultiPolygon ps =>
      (sum (map polygon_area ps), sum (map (fun p => path_length (fst p)) ps))
  end.

Definition geometry_length (g : Geometry) : num :=
  match g with
  | LineString cs => path_length cs
  | MultiLineString ls => sum (map path_length ls)
  | Polygon sh _ => path_length sh
  | MultiPolygon ps => sum (map (fun p => path_length (fst p)) ps)
  end.

Definition num_min (x y : num) : num := if num_leb x y then x else y.
Definition num_max (x y : num) : num := if num_leb x y then y else x.

(** The bounding box of a ring: (xmin, ymin), (xmax, ymax). *)
Definition bbox (r : list point) : option (point * point) :=
  match r with
  | [] => None
  | p :: ps =>
      Some (fold_left
              (fun b q => ((num_min (fst (fst b)) (fst q), num_min (snd (fst b)) (snd q)),
                           (num_max (fst (snd b)) (fst q), num_max (snd (snd b)) (snd q))))
              ps (p, p))
  end.

Definition inside (b : point * point) (q : point) : bool :=
  num_leb (fst (fst b)) (fst q) && num_leb (fst q) (fst (snd b)) &&
  num_leb (snd (fst b)) (snd q) && num_leb (snd q) (snd (snd b)).

Definition intersection (road canton : Geometry) : option Geometry :=
  match road, canton with
  | LineString cs, Polygon sh _ =>
      match bbox sh with
      | Some b =>
          match filter (inside b) cs with
          | (_ :: _ :: _) as kept => Some (LineString kept)
          | _ => None
          end
      | None => None
      end
  | _, _ => None
  end.

Definition parts (g : Geometry) : list (list point) :=
  match g with
  | LineString cs => [cs]
  | MultiLineString ls => ls
  | Polygon sh hs => sh :: hs
  | MultiPolygon ps => flat_map (fun p => fst p :: snd p) ps
  end.

Definition unary_union (gs : list Geometry) : Geometry :=
  MultiLineString (flat_map parts gs).

(** A point with integer coordinates. *)
Definition pt (x y : Z) : point := (of_Z x, of_Z y).

(** The rectangle with corners (x0, y0) and (x1, y1), counter-clockwise. *)
Definition rect (x0 y0 x1 y1 : Z) : Geometry :=
  Polygon [pt x0 y0; pt x1 y0; pt x1 y1; pt x0 y1; pt x0 y0] [].

End Plano.

(** ** The pipeline *)

Section Pipeline.

(** The geometry engine.
    - [geometry_area_perimeter]: pyproj's [Geod.geometry_area_perimeter],
      the signed area (m2) and the perimeter (m);
    - [geometry_length]: pyproj's [Geod.geometry_length] (m);
    - [intersection]: the geometry the overlay keeps for a road and a
      canton, [None] when they share no line geometry;
    - [unary_union]: the merge of the geometries of a dissolved group. *)
Variable geometry_area_perimeter : Geometry -> num * num.
Variable geometry_length : Geometry -> num.
Variable intersection : Geometry -> Geometry -> option Geometry.
Variable unary_union : list Geometry -> Geometry.

(** *** Inputs (lines 67-79) *)

Definition vias_path := "data/red_vial.geojson".
Definition cantones_path := "data/limite_cantonal.geojson".

Definition vias_columns := ["categoria"; "codigo"].
Definition cantones_columns := ["id"; "canton"; "provincia"].

(** [area_f = lambda x: abs(geod.geometry_area_perimeter(x)[0])] *)
Definition area_f (x : Geometry) : num :=
  Qcabs (fst (geometry_area_perimeter x)).

(** The rows of the road frame after the column selection. *)
Definition vias_rows (l : layer) : list Via.t :=
  map (fun r => Via.mk (cell (columns l) "categoria" (fst r))
                       (cell (columns l) "codigo" (fst r))
                       (snd r))
      (records l).

(** The rows of the canton frame, with the [area] column (km2). *)
Definition cantones_rows (l : layer) : list Canton.t :=
  map (fun r => Canton.mk (cell (columns l) "id" (fst r))
                          (cell (columns l) "canton" (fst r))
                          (cell (columns l) "provincia" (fst r))
                          (snd r)
                          (area_f (snd r) / m2_per_km2)%Qc)
      (records l).

(** *** Filters (lines 83-86) *)

Definition lista_categorias (vias : list Via.t) : list string :=
  sort String.leb (unique String.eqb (map Via.categoria vias)).

(** [st.sidebar.selectbox]: the option the user has picked ([pick] is
    its position; a fresh page shows position 0), [None] when there is
    no option to show. *)
Definition selectbox (options : list string) (pick : nat) : option string :=
  nth_error options pick.

(** *** Processing (lines 94-116) *)

(** [vias[vias['categoria'] == filtro_categoria]] *)
Definition filtrar (filtro_categoria : string) (vias : list Via.t) : list Via.t :=
  filter (fun v => (Via.categoria v =? filtro_categoria)%string) vias.

(** [vias.overlay(cantones, how='intersection')]: one row per road and
    canton that intersect, roads in row order and, for a road, cantons
    in row order. *)
Definition overlay (vias : list Via.t) (cantones : list Canton.t) : list Overlay.t :=
  flat_map
    (fun v =>
       flat_map
         (fun c =>
            match intersection (Via.geometry v) (Canton.geometry c) with
            | Some g =>
                [Overlay.mk (Via.categoria v) (Via.codigo v)
                            (Canton.id c) (Canton.canton c) (Canton.provincia c)
                            (Canton.area c) g]
            | None => []
            end)
         cantones)
    vias.

(** Line 101 on a frame that has rows: the [longitud] column, from the
    row's own geometry. *)
Definition add_longitud (rows : list Overlay.t) : list CantonVia.t :=
  map (fun r => CantonVia.mk r (geometry_length (Overlay.geometry r) / m_per_km)%Qc) rows.

(** [cantones_vias] as line 101 leaves it when it does not raise (see
    [linea_101] for the frame without rows). *)
Definition cantones_vias (vias : list Via.t) (cantones : list Canton.t)
  : list CantonVia.t :=
  add_longitud (overlay vias cantones).

(** Line 101 as the script runs it.  On an overlay without rows
    [geometry.apply] gives back an empty series of geometry type, and
    dividing that series by [1e3] raises [TypeError]; on an overlay with
    rows the frame gets its [longitud] column. *)
Definition linea_101 (rows : list Overlay.t) : result (list CantonVia.t) :=
  match rows with
  | [] => raise TypeError
  | _ :: _ => ret (add_longitud rows)
  end.

(** The grouping keys of a row: its canton, and its canton and category. *)
Definition canton_of (r : CantonVia.t) : string :=
  Overlay.canton (CantonVia.row r).

Definition clave (r : CantonVia.t) : string * string :=
  (Overlay.canton (CantonVia.row r), Overlay.categoria (CantonVia.row r)).

(** Lines 103-106. *)
Definition por_categoria (cv : list CantonVia.t) : list PorCategoria.t :=
  flat_map
    (fun kg : (string * string) * list CantonVia.t =>
       match first (map (fun r => Overlay.area (CantonVia.row r)) (snd kg)) with
       | Some a =>
           [PorCategoria.mk (fst (fst kg)) (snd (fst kg)) a
                            (sum (map CantonVia.longitud (snd kg)))]
       | None => []
       end)
    (groupby pair_eqb pair_leb clave cv).

(** Lines 108-115. *)
Definition dissolve (cv : list CantonVia.t) : list Dissolve.t :=
  flat_map
    (fun kg : string * list CantonVia.t =>
       match first (map (fun r => Overlay.id (CantonVia.row r)) (snd kg)),
             first (map (fun r => Overlay.area (CantonVia.row r)) (snd kg)) with
       | Some i, Some a =>
           [Dissolve.mk (fst kg)
                        (unary_union (map (fun r => Overlay.geometry (CantonVia.row r)) (snd kg)))
                        i a
                        (sum (map CantonVia.longitud (snd kg)))]
       | _, _ => []
       end)
    (groupby String.eqb String.leb canton_of cv).

(** Line 116: the [densidad] column.  For a row of area 0 the script's
    float division gives [inf] or [nan], where the division on [Qc] gives
    0; nothing below depends on the value of the density of such a row. *)
Definition add_densidad (rows : list Dissolve.t) : list PorCanton.t :=
  map (fun r => PorCanton.mk r (Dissolve.longitud r / Dissolve.area r)%Qc) rows.

Definition por_canton (cv : list CantonVia.t) : list PorCanton.t :=
  add_densidad (dissolve cv).

(** *** Outputs (lines 125-162) *)

Definition has_duplicates {K : Type} (eqb : K -> K -> bool) (l : list K) : bool :=
  negb (List.length (unique eqb l) =? List.length l)%nat.

(** [por_categoria.pivot(index='canton', columns='categoria',
    values='longitud')]: the column labels, and a row per canton with a
    cell per label, [NaN] where the frame has no row for the pair;
    [ValueError] when a pair occurs twice. *)
Definition pivot (rows : list PorCategoria.t)
  : result (list string * list (string * list valor)) :=
  if has_duplicates pair_eqb
       (map (fun r => (PorCategoria.canton r, PorCategoria.categoria r)) rows)
  then raise ValueError
  else
    let columnas := sort String.leb (unique String.eqb (map PorCategoria.categoria rows)) in
    let indice := sort String.leb (unique String.eqb (map PorCategoria.canton rows)) in
    ret (columnas,
         map (fun c =>
                (c, map (fun k =>
                           match find (fun r => pair_eqb (PorCategoria.canton r,
                                                          PorCategoria.categoria r) (c, k))
                                      rows with
                           | Some r => Num (PorCategoria.longitud r)
                           | None => NaN
                           end)
                        columnas))
             indice).

(** [.fillna('--')] *)
Definition fillna (v : valor) : valor :=
  match v with
  | NaN => Text "--"
  | _ => v
  end.

(** [pd.concat([tabla, por_canton['densidad']], join='inner',
    axis='columns')]: the rows whose canton is in both indexes. *)
Definition concat_densidad (filas : list (string * list valor))
    (pc : list PorCanton.t) : list Tabla.t :=
  flat_map
    (fun f =>
       match find (fun r => (Dissolve.canton (PorCanton.row r) =? fst f)%string) pc with
       | Some r => [Tabla.mk (fst f) (snd f) (PorCanton.densidad r)]
       | None => []
       end)
    filas.

(** Lines 126-127: the column labels and the rows of [tabla]. *)
Definition tabla (pcat : list PorCategoria.t) (pc : list PorCanton.t)
  : result (list string * list Tabla.t) :=
  p <- pivot pcat ;;
  ret ((fst p ++ ["densidad"])%list,
       concat_densidad (map (fun f => (fst f, map fillna (snd f))) (snd p)) pc).

(** [sort_values('longitud', ascending=False)]: longest first, rows of
    equal length in row order.  That is the order of [nlargest], which
    keeps the earlier of two equal rows.  The plain [sort_values] of line
    161 uses pandas' default sort, which may leave rows of equal length
    in another order: [renombrar_otros] below is line 162 on any
    descending arrangement of the rows. *)
Definition longer (a b : PorCanton.t) : bool :=
  num_leb (Dissolve.longitud (PorCanton.row b)) (Dissolve.longitud (PorCanton.row a)).

Definition sort_values_desc (rows : list PorCanton.t) : list PorCanton.t :=
  sort longer rows.

(** [nlargest(n, 'longitud')]: the first [n] rows of the descending
    order, the earlier row first among equals ([keep='first']). *)
Definition nlargest (n : nat) (rows : list PorCanton.t) : list PorCanton.t :=
  firstn n (sort_values_desc rows).

(** Line 144: a series of lengths indexed by canton. *)
Definition top_15 (pc : list PorCanton.t) : list (string * num) :=
  map (fun r => (Dissolve.canton (PorCanton.row r), Dissolve.longitud (PorCanton.row r)))
      (nlargest 15 pc).

Definition otros := "Otros cantones".

Definition set_canton (name : string) (r : PorCanton.t) : PorCanton.t :=
  let d := PorCanton.row r in
  PorCanton.mk (Dissolve.mk name (Dissolve.geometry d) (Dissolve.id d)
                            (Dissolve.area d) (Dissolve.longitud d))
               (PorCanton.densidad r).

(** Lines 161-162: rows numbered from 0 in descending order of length;
    the rows numbered 15 and up are renamed.  Rows of equal length are
    taken in row order here, one of the arrangements line 161 may leave. *)
Definition por_canton_pie (pc : list PorCanton.t) : list PorCanton.t :=
  let sorted := sort_values_desc pc in
  map (fun ir => if (15 <=? fst ir)%nat then set_canton otros (snd ir) else snd ir)
      (combine (seq 0 (List.length sorted)) sorted).

(** Line 162 on the rows in the order line 161 left them: rows numbered
    from 0, the rows numbered 15 and up renamed. *)
Definition renombrar_otros (sorted : list PorCanton.t) : list PorCanton.t :=
  map (fun ir => if (15 <=? fst ir)%nat then set_canton otros (snd ir) else snd ir)
      (combine (seq 0 (List.length sorted)) sorted).

(** The size of the pie slice named [name]: [px.pie] adds up the values
    of the rows that carry the name. *)
Definition pie_slice (name : string) (pie : list PorCanton.t) : num :=
  sum (map (fun r => Dissolve.longitud (PorCanton.row r))
           (filter (fun r => (Dissolve.canton (PorCanton.row r) =? name)%string) pie)).

(** *** The script *)

Record salidas : Type := mk_salidas {
  titulo_tabla : string;
  vias_filtradas : list Via.t;
  s_cantones_vias : list CantonVia.t;
  s_por_categoria : list PorCategoria.t;
  s_por_canton : list PorCanton.t;
  s_tabla : list string * list Tabla.t;
  s_top_15 : list (string * num);
  s_por_canton_pie : list PorCanton.t
}.

(** One run of the script on the files of [fs], the user having picked
    the option at position [pick] of the category selector. *)
Definition principal (fs : filesystem) (pick : nat) : result salidas :=
  vias <- read_file fs vias_path ;;
  vias <- loc vias_columns vias ;;
  cantones <- read_file fs cantones_path ;;
  cantones <- loc cantones_columns cantones ;;
  let vias := vias_rows vias in
  let cantones := cantones_rows cantones in
  match selectbox (lista_categorias vias) pick with
  | None => raise AttributeError
  | Some filtro_categoria =>
      let filtro_categoria_str := lower filtro_categoria in
      let vias := filtrar filtro_categoria vias in
      cv <- linea_101 (overlay vias cantones) ;;
      let pcat := por_categoria cv in
      let pc := por_canton cv in
      t <- tabla pcat pc ;;
      ret {| titulo_tabla := "Tabla de vías tipo " ++ filtro_categoria_str;
             vias_filtradas := vias;
             s_cantones_vias := cv;
             s_por_categoria := pcat;
             s_por_canton := pc;
             s_tabla := t;
             s_top_15 := top_15 pc;
             s_por_canton_pie := por_canton_pie pc |}
  end.

(** *** The bar chart and the map (lines 145-148, 175-186) *)

(** [por_categoria.join(top_15, on='canton', how='inner',
    rsuffix='_canton')]: the rows of [por_categoria] whose canton is in
    the index of [top_15], in the order of [por_categoria], each with the
    matching value of [top_15]. *)
Definition top_15_por_categoria (pcat : list PorCategoria.t)
    (top : list (string * num)) : list Barra.t :=
  flat_map
    (fun p => map (fun e => Barra.mk p (snd e))
                  (filter (fun e => (fst e =? PorCategoria.canton p)%string) top))
    pcat.

(** [sort_values('longitud_canton', ascending=False)] *)
Definition taller (a b : Barra.t) : bool :=
  num_leb (Barra.longitud_canton b) (Barra.longitud_canton a).

(** Line 148: the rows handed to [px.bar], [x] the canton and [y] the
    row's own [longitud]. *)
Definition barras (pcat : list PorCategoria.t) (pc : list PorCanton.t)
  : list Barra.t :=
  sort taller (top_15_por_categoria pcat (top_15 pc)).

(** Lines 175, 184: the columns ['id', 'densidad'] of [por_canton_mapa]
    that the choropleth reads. *)
Definition datos_coropletas (pc : list PorCanton.t) : list (string * num) :=
  map (fun r => (Dissolve.id (PorCanton.row r), PorCanton.densidad r)) pc.

End Pipeline.

(** ** Small maps

    Two cantons side by side, A on [0,1] x [0,1] and B on [1,3] x [0,1],
    and four roads: road 1 runs along the bottom of both cantons, road 2
    crosses B, road 27 runs along the top of A and has its category in
    lower case, road 900 lies outside both cantons. *)

Module Ejemplo.
Import Plano.

Definition red_vial : layer :=
  {| crs := "EPSG:4326";
     columns := ["categoria"; "carriles"; "codigo"];
     records :=
       [ (["AUTOPISTA"; "4"; "1"], LineString [pt 0 0; pt 1 0; pt 3 0]);
         (["AUTOPISTA"; "2"; "2"], LineString [pt 2 0; pt 2 1]);
         (["autopista"; "2"; "27"], LineString [pt 0 1; pt 1 1]);
         (["VEREDA"; "1"; "900"], LineString [pt 5 5; pt 6 5]) ] |}.

Definition limite_cantonal : layer :=
  {| crs := "EPSG:4326";
     columns := ["id"; "canton"; "provincia"];
     records :=
       [ (["101"; "A"; "P"], rect 0 0 1 1);
         (["102"; "B"; "P"], rect 1 0 3 1) ] |}.

Definition disco (vias cantones : layer) : filesystem :=
  fun path =>
    if (path =? vias_path)%string then Some (GeoJSON vias)
    else if (path =? cantones_path)%string then Some (GeoJSON cantones)
    else None.

Definition fs : filesystem := disco red_vial limite_cantonal.

(** The same files in the projected CRS of Costa Rica. *)
Definition fs_crtm05 : filesystem := recode "EPSG:5367" fs.

(** A canton layer where two features carry the same canton name. *)
Definition limite_repetido : layer :=
  {| crs := "EPSG:4326";
     columns := ["id"; "canton"; "provincia"];
     records :=
       [ (["101"; "A"; "P"], rect 0 0 1 1);
         (["102"; "A"; "P"], rect 1 0 3 1) ] |}.



Definition vias : list Via.t := vias_rows red_vial.

Definition cantones : list Canton.t :=
  cantones_rows Plano.geometry_area_perimeter limite_cantonal.

Definition cantones_repetidos : list Canton.t :=
  cantones_rows Plano.geometry_area_perimeter limite_repetido.

(** [cantones_vias] for the category AUTOPISTA. *)
Definition cv : list CantonVia.t :=
  cantones_vias Plano.geometry_length Plano.intersection
                (filtrar "AUTOPISTA" vias) cantones.

Definition cv_repetidos : list CantonVia.t :=
  cantones_vias Plano.geometry_length Plano.intersection
                (filtrar "AUTOPISTA" vias) cantones_repetidos.

(** One run on the planar engine. *)
Definition correr (fs : filesystem) (pick : nat) : result salidas :=
  principal Plano.geometry_area_perimeter Plano.geometry_length
            Plano.intersection Plano.unary_union fs pick.

(** Twenty cantons of lengths 1 km to 20 km, for the charts. *)
Definition fila (n : nat) : PorCanton.t :=
  PorCanton.mk
    (Dissolve.mk (String (ascii_of_nat (64 + n)) EmptyString)
                 (LineString []) "0" (of_Z 1) (of_Z (Z.of_nat n)))
    (of_Z (Z.of_nat n)).

Definition veinte : list PorCanton.t := map fila (seq 1 20).

(** Sixteen cantons whose 15th and 16th lengths are equal, in two
    descending arrangements. *)
Definition catorce : list PorCanton.t := rev (map fila (seq 3 14)).

Definition empatados : list PorCanton.t :=
  (catorce ++ [fila 2; set_canton "Z" (fila 2)])%list.

Definition empatados_al_reves : list PorCanton.t :=
  (catorce ++ [set_canton "Z" (fila 2); fila 2])%list.

(** A number as a fraction, to read results. *)
Definition fraccion (x : num) : Q := this x.
End Ejemplo.

(** * Properties *)

(** ** Columns: distinct values and sorting *)

Section UniqueFacts.
Context {A : Type}.
Variable eqb : A -> A -> bool.
Hypothesis eqb_eq : forall x y, eqb x y = true <-> x = y.

Lemma mem_In (x : A) (l : list A) : mem eqb x l = true <-> In x l.
Proof.
  unfold mem. rewrite existsb_exists. split.
  - intros [y [Hy Hxy]]. apply eqb_eq in Hxy. now subst.
  - intros H. exists x. split; [assumption | now apply eqb_eq].
Qed.

Lemma mem_not_In (x : A) (l : list A) : mem eqb x l = false <-> ~ In x l.
Proof.
  rewrite <- mem_In. destruct (mem eqb x l); split; congruence.
Qed.

Lemma unique_from_In (l seen : list A) (x : A) :
  In x (unique_from eqb seen l) <-> In x l /\ ~ In x seen.
Proof.
  revert seen. induction l as [|y l IH]; intros seen; simpl.
  - tauto.
  - destruct (mem eqb y seen) eqn:Hm.
    + apply mem_In in Hm. rewrite IH. split.
      * tauto.
      * intros [[<- | H] Hn]; [contradiction | tauto].
    + apply mem_not_In in Hm. simpl. rewrite IH. simpl. split.
      * intros [<- | [H Hn]]; [tauto | ]. split; [tauto | intuition].
      * intros [[<- | H] Hn]; [tauto | ].
        destruct (eqb y x) eqn:E.
        -- apply eqb_eq in E. now left.
        -- right. split; [assumption | ].
           intros [-> | Hs]; [ | contradiction].
           assert (eqb x x = true) by now apply eqb_eq. congruence.
Qed.

Lemma unique_In (l : list A) (x : A) : In x (unique eqb l) <-> In x l.
Proof.
  unfold unique. rewrite unique_from_In. simpl. tauto.
Qed.

Lemma unique_from_NoDup (l seen : list A) : NoDup (unique_from eqb seen l).
Proof.
  revert seen. induction l as [|y l IH]; intros seen; simpl.
  - constructor.
  - destruct (mem eqb y seen); [apply IH | ].
    constructor; [ | apply IH].
    rewrite unique_from_In. simpl. tauto.
Qed.

Lemma unique_NoDup (l : list A) : NoDup (unique eqb l).
Proof. apply unique_from_NoDup. Qed.

Lemma unique_from_fixed (l seen : list A) :
  NoDup l -> (forall x, In x l -> ~ In x seen) -> unique_from eqb seen l = l.
Proof.
  revert seen. induction l as [|y l IH]; intros seen Hnd Hs; simpl.
  - reflexivity.
  - inversion Hnd as [|? ? Hy Hnd']; subst.
    assert (Hm : mem eqb y seen = false).
    { apply mem_not_In. apply Hs. now left. }
    rewrite Hm. f_equal. apply IH; [assumption | ].
    intros x Hx [-> | Hin]; [contradiction | ].
    apply (Hs x); [now right | assumption].
Qed.

Lemma unique_fixed (l : list A) : NoDup l -> unique eqb l = l.
Proof.
  intros H. apply unique_from_fixed; [assumption | ]. intros x _ [].
Qed.
End UniqueFacts.

Section SortFacts.
Context {A : Type}.
Variable leb : A -> A -> bool.

Lemma insert_perm (x : A) (l : list A) : Permutation (insert leb x l) (x :: l).
Proof.
  induction l as [|y l IH]; simpl.
  - apply Permutation_refl.
  - destruct (leb y x).
    + apply perm_trans with (y :: x :: l).
      * now apply perm_skip.
      * apply perm_swap.
    + apply Permutation_refl.
Qed.

Lemma sort_from_perm (l acc : list A) :
  Permutation (sort_from leb acc l) (acc ++ l).
Proof.
  revert acc. induction l as [|x l IH]; intros acc; simpl.
  - rewrite app_nil_r. apply Permutation_refl.
  - eapply perm_trans; [apply IH | ].
    eapply perm_trans; [apply Permutation_app_tail, insert_perm | ].
    simpl. apply Permutation_middle.
Qed.

Lemma sort_perm (l : list A) : Permutation (sort leb l) l.
Proof. apply (sort_from_perm l []). Qed.

Lemma sort_In (l : list A) (x : A) : In x (sort leb l) <-> In x l.
Proof.
  split; apply Permutation_in; [ | apply Permutation_sym]; apply sort_perm.
Qed.

Lemma sort_NoDup (l : list A) : NoDup l -> NoDup (sort leb l).
Proof.
  intros H. eapply Permutation_NoDup; [ | exact H].
  apply Permutation_sym, sort_perm.
Qed.

Lemma sort_length (l : list A) : List.length (sort leb l) = List.length l.
Proof. apply Permutation_length, sort_perm. Qed.

Hypothesis leb_total : forall x y, leb x y = true \/ leb y x = true.

Lemma insert_hd (x a : A) (l : list A) :
  le leb a x -> HdRel (le leb) a l -> HdRel (le leb) a (insert leb x l).
Proof.
  intros Hax Hl. destruct l as [|y l]; simpl.
  - now constructor.
  - inversion Hl; subst. destruct (leb y x); now constructor.
Qed.

Lemma insert_sorted (x : A) (l : list A) :
  Sorted (le leb) l -> Sorted (le leb) (insert leb x l).
Proof.
  induction l as [|y l IH]; intros Hs; simpl.
  - repeat constructor.
  - inversion Hs; subst. destruct (leb y x) eqn:E.
    + constructor; [now apply IH | now apply insert_hd].
    + constructor; [assumption | ]. constructor.
      destruct (leb_total x y) as [H | H]; [exact H | congruence].
Qed.

Lemma sort_from_sorted (l acc : list A) :
  Sorted (le leb) acc -> Sorted (le leb) (sort_from leb acc l).
Proof.
  revert acc. induction l as [|x l IH]; intros acc Hs; simpl.
  - assumption.
  - now apply IH, insert_sorted.
Qed.

Lemma sort_sorted (l : list A) : Sorted (le leb) (sort leb l).
Proof. apply sort_from_sorted. constructor. Qed.
End SortFacts.

(** ** Sums *)

Lemma fold_plus (l : list num) (a : num) :
  fold_left Qcplus l a = (a + sum l)%Qc.
Proof.
  unfold sum. revert a. induction l as [|x l IH]; intros a; simpl.
  - ring.
  - rewrite IH, (IH (0 + x)%Qc). ring.
Qed.

Lemma sum_nil : sum [] = 0%Qc.
Proof. reflexivity. Qed.

Lemma sum_cons (x : num) (l : list num) : sum (x :: l) = (x + sum l)%Qc.
Proof.
  unfold sum at 1. simpl. rewrite fold_plus. ring.
Qed.

Lemma sum_app (l1 l2 : list num) : sum (l1 ++ l2) = (sum l1 + sum l2)%Qc.
Proof.
  induction l1 as [|x l1 IH]; simpl.
  - rewrite sum_nil. ring.
  - rewrite !sum_cons, IH. ring.
Qed.

Lemma sum_perm (l1 l2 : list num) : Permutation l1 l2 -> sum l1 = sum l2.
Proof.
  induction 1 as [ | x l1 l2 _ IH | x y l | l1 l2 l3 _ IH1 _ IH2].
  - reflexivity.
  - rewrite !sum_cons, IH. reflexivity.
  - rewrite !sum_cons. ring.
  - congruence.
Qed.

(** ** Groups *)

Lemma pair_eqb_eq (a b : string * string) : pair_eqb a b = true <-> a = b.
Proof.
  destruct a as [a1 a2], b as [b1 b2]. unfold pair_eqb. simpl.
  rewrite andb_true_iff, !String.eqb_eq. split.
  - intros [-> ->]. reflexivity.
  - intros H. inversion H. auto.
Qed.

Section GroupFacts.
Context {R K : Type}.
Variable eqb : K -> K -> bool.
Variable key : R -> K.
Hypothesis eqb_eq : forall x y, eqb x y = true <-> x = y.

Section Ordered.
Variable leb : K -> K -> bool.

Lemma groupby_keys (rows : list R) :
  map fst (groupby eqb leb key rows) = sort leb (unique eqb (map key rows)).
Proof.
  unfold groupby, group_of. rewrite map_map. simpl. apply map_id.
Qed.

Lemma groupby_In (rows : list R) (k : K) (g : list R) :
  In (k, g) (groupby eqb leb key rows) <->
  In k (map key rows) /\ g = group_of eqb key k rows.
Proof.
  unfold groupby, group_of. rewrite in_map_iff. split.
  - intros [k' [E Hk]]. inversion E; subst.
    apply (proj1 (sort_In leb _ _)) in Hk.
    apply (proj1 (unique_In eqb eqb_eq _ _)) in Hk.
    split; [assumption | reflexivity].
  - intros [Hk ->]. exists k. split; [reflexivity | ].
    apply (proj2 (sort_In leb _ _)).
    now apply (proj2 (unique_In eqb eqb_eq _ _)).
Qed.

Lemma groupby_keys_NoDup (rows : list R) :
  NoDup (map fst (groupby eqb leb key rows)).
Proof.
  rewrite groupby_keys. apply sort_NoDup, unique_NoDup, eqb_eq.
Qed.

End Ordered.

(** A key that occurs has a first row. *)
Lemma group_of_occurs (rows : list R) (k : K) :
  In k (map key rows) -> exists x rest, group_of eqb key k rows = x :: rest.
Proof.
  intros Hk. apply in_map_iff in Hk. destruct Hk as [r [Hr Hin]].
  assert (Hg : In r (group_of eqb key k rows)).
  { apply filter_In. split; [assumption | now apply eqb_eq]. }
  destruct (group_of eqb key k rows) as [|x rest]; [contradiction | eauto].
Qed.

Lemma group_of_In (rows : list R) (k : K) (r : R) :
  In r (group_of eqb key k rows) <-> In r rows /\ key r = k.
Proof.
  unfold group_of. rewrite filter_In, eqb_eq. reflexivity.
Qed.

(** Adding up a column group by group.  [G ks rows] is the sum over the
    keys [ks] of the group sums. *)
Variable f : R -> num.

Lemma group_sums_skip (ks : list K) (r : R) (rows : list R) :
  ~ In (key r) ks ->
  sum (map (fun k => group_sum eqb key f k (r :: rows)) ks) =
  sum (map (fun k => group_sum eqb key f k rows) ks).
Proof.
  induction ks as [|k ks IH]; intros Hn; simpl.
  - reflexivity.
  - rewrite !sum_cons, IH by (simpl in Hn; tauto).
    unfold group_sum, group_of. simpl.
    destruct (eqb (key r) k) eqn:E.
    + apply eqb_eq in E. simpl in Hn. exfalso. apply Hn. now left.
    + reflexivity.
Qed.

Lemma group_sums_hit (ks : list K) (r : R) (rows : list R) :
  NoDup ks -> In (key r) ks ->
  sum (map (fun k => group_sum eqb key f k (r :: rows)) ks) =
  (f r + sum (map (fun k => group_sum eqb key f k rows) ks))%Qc.
Proof.
  induction ks as [|k ks IH]; intros Hnd Hin; simpl.
  - contradiction.
  - rewrite !sum_cons. inversion Hnd as [|? ? Hk Hnd']; subst.
    unfold group_sum at 1, group_of. simpl.
    destruct (eqb (key r) k) eqn:E.
    + apply eqb_eq in E. rewrite (group_sums_skip ks r rows) by congruence.
      simpl. rewrite sum_cons. unfold group_sum, group_of. ring.
    + destruct Hin as [Hin | Hin].
      * symmetry in Hin. apply eqb_eq in Hin. congruence.
      * rewrite IH by assumption. unfold group_sum, group_of. ring.
Qed.

(** The group sums over a duplicate-free set of keys add up to the sum
    over the rows whose key is in the set. *)
Lemma group_sums_total (ks : list K) (rows : list R) :
  NoDup ks ->
  sum (map (fun k => group_sum eqb key f k rows) ks) =
  sum (map f (filter (fun r => mem eqb (key r) ks) rows)).
Proof.
  intros Hnd. induction rows as [|r rows IH]; simpl.
  - unfold group_sum, group_of. simpl.
    induction ks as [|k ks IHk]; simpl; [reflexivity | ].
    inversion Hnd; subst. rewrite sum_cons, IHk by assumption.
    rewrite sum_nil. ring.
  - destruct (mem eqb (key r) ks) eqn:Hm.
    + apply (mem_In eqb eqb_eq) in Hm.
      rewrite (group_sums_hit ks r rows) by assumption.
      simpl. rewrite sum_cons, IH.
      reflexivity.
    + apply (mem_not_In eqb eqb_eq) in Hm.
      rewrite (group_sums_skip ks r rows) by assumption. exact IH.
Qed.
End GroupFacts.

(** ** The pipeline *)

Section Properties.
Variable geometry_area_perimeter : Geometry -> num * num.
Variable geometry_length : Geometry -> num.
Variable intersection : Geometry -> Geometry -> option Geometry.
Variable unary_union : list Geometry -> Geometry.

(** *** The overlay *)

Lemma overlay_In (vias : list Via.t) (cantones : list Canton.t) (r : Overlay.t) :
  In r (overlay intersection vias cantones) <->
  exists v c g,
    In v vias /\ In c cantones /\
    intersection (Via.geometry v) (Canton.geometry c) = Some g /\
    r = Overlay.mk (Via.categoria v) (Via.codigo v)
                   (Canton.id c) (Canton.canton c) (Canton.provincia c)
                   (Canton.area c) g.
Proof.
  unfold overlay. rewrite in_flat_map. split.
  - intros [v [Hv Hr]]. apply in_flat_map in Hr. destruct Hr as [c [Hc Hr]].
    destruct (intersection (Via.geometry v) (Canton.geometry c)) as [g|] eqn:E.
    + destruct Hr as [<- | []]. exists v, c, g. auto.
    + destruct Hr.
  - intros [v [c [g [Hv [Hc [E ->]]]]]]. exists v. split; [assumption | ].
    apply in_flat_map. exists c. split; [assumption | ].
    rewrite E. now left.
Qed.

Lemma overlay_nil (vias : list Via.t) (cantones : list Canton.t) :
  (forall v c, In v vias -> In c cantones ->
               intersection (Via.geometry v) (Canton.geometry c) = None) ->
  overlay intersection vias cantones = [].
Proof.
  intros H. destruct (overlay intersection vias cantones) as [|r l] eqn:E.
  - reflexivity.
  - assert (Hr : In r (overlay intersection vias cantones)) by (rewrite E; now left).
    apply overlay_In in Hr. destruct Hr as [v [c [g [Hv [Hc [Hg _]]]]]].
    rewrite (H v c Hv Hc) in Hg. discriminate.
Qed.

Lemma cantones_vias_In (vias : list Via.t) (cantones : list Canton.t)
    (r : CantonVia.t) :
  In r (cantones_vias geometry_length intersection vias cantones) <->
  exists v c g,
    In v vias /\ In c cantones /\
    intersection (Via.geometry v) (Canton.geometry c) = Some g /\
    r = CantonVia.mk
          (Overlay.mk (Via.categoria v) (Via.codigo v)
                      (Canton.id c) (Canton.canton c) (Canton.provincia c)
                      (Canton.area c) g)
          (geometry_length g / m_per_km)%Qc.
Proof.
  unfold cantones_vias, add_longitud. rewrite in_map_iff. split.
  - intros [o [<- Ho]]. apply overlay_In in Ho.
    destruct Ho as [v [c [g [Hv [Hc [Hg ->]]]]]].
    exists v, c, g. auto.
  - intros [v [c [g [Hv [Hc [Hg ->]]]]]].
    exists (Overlay.mk (Via.categoria v) (Via.codigo v)
                       (Canton.id c) (Canton.canton c) (Canton.provincia c)
                       (Canton.area c) g).
    split; [reflexivity | ].
    apply overlay_In. exists v, c, g. auto.
Qed.

(** C2 (lines 100-101).  Every row of [cantones_vias] comes from a road
    and a canton that intersect; its geometry is their intersection and
    its [longitud] is the geodesic length of that clipped geometry over
    1000 (the road's own geometry does not enter).  Conversely every
    road and canton that intersect give such a row, so a road gets one
    row, with its own clipped length, for each canton it crosses. *)
Theorem C2_longitud_of_clipped_geometry
    (vias : list Via.t) (cantones : list Canton.t) :
  (forall r,
      In r (cantones_vias geometry_length intersection vias cantones) ->
      exists v c g,
        In v vias /\ In c cantones /\
        intersection (Via.geometry v) (Canton.geometry c) = Some g /\
        Overlay.geometry (CantonVia.row r) = g /\
        Overlay.codigo (CantonVia.row r) = Via.codigo v /\
        Overlay.canton (CantonVia.row r) = Canton.canton c /\
        CantonVia.longitud r = (geometry_length g / m_per_km)%Qc) /\
  (forall v c g,
      In v vias -> In c cantones ->
      intersection (Via.geometry v) (Canton.geometry c) = Some g ->
      In (CantonVia.mk
            (Overlay.mk (Via.categoria v) (Via.codigo v)
                        (Canton.id c) (Canton.canton c) (Canton.provincia c)
                        (Canton.area c) g)
            (geometry_length g / m_per_km)%Qc)
         (cantones_vias geometry_length intersection vias cantones)).
Proof.
  split.
  - intros r Hr. apply cantones_vias_In in Hr.
    destruct Hr as [v [c [g [Hv [Hc [Hg ->]]]]]].
    exists v, c, g. simpl. repeat split; assumption.
  - intros v c g Hv Hc Hg. apply cantones_vias_In. exists v, c, g. auto.
Qed.

(** *** The aggregates *)

Lemma dissolve_In (cv : list CantonVia.t) (d : Dissolve.t) :
  In d (dissolve unary_union cv) <->
  exists x rest,
    group_of String.eqb canton_of (Dissolve.canton d) cv = x :: rest /\
    d = Dissolve.mk (Overlay.canton (CantonVia.row x))
          (unary_union (map (fun r => Overlay.geometry (CantonVia.row r)) (x :: rest)))
          (Overlay.id (CantonVia.row x))
          (Overlay.area (CantonVia.row x))
          (sum (map CantonVia.longitud (x :: rest))).
Proof.
  unfold dissolve. rewrite in_flat_map. split.
  - intros [[k g] [Hkg Hd]].
    apply (groupby_In String.eqb _ String.eqb_eq String.leb) in Hkg.
    destruct Hkg as [Hk ->].
    destruct (group_of_occurs String.eqb _ String.eqb_eq cv k Hk) as [x [rest E]].
    cbn [fst snd] in Hd. rewrite E in Hd. simpl in Hd.
    destruct Hd as [<- | []]. simpl. exists x, rest.
    assert (Hx : canton_of x = k).
    { apply (group_of_In String.eqb canton_of String.eqb_eq cv k x).
      rewrite E. now left. }
    unfold canton_of in Hx. rewrite Hx. split; [exact E | reflexivity].
  - intros [x [rest [E ->]]]. simpl in E.
    assert (Hx : In x (group_of String.eqb canton_of (canton_of x) cv)).
    { unfold canton_of at 2. rewrite E. now left. }
    apply (group_of_In String.eqb canton_of String.eqb_eq) in Hx.
    exists (canton_of x, group_of String.eqb canton_of (canton_of x) cv). split.
    + apply (groupby_In String.eqb _ String.eqb_eq String.leb). split.
      * apply in_map_iff. exists x. tauto.
      * reflexivity.
    + cbn [fst snd].
      change (Overlay.canton (CantonVia.row x)) with (canton_of x) in E.
      rewrite E. simpl. left. reflexivity.
Qed.

Lemma por_canton_In (cv : list CantonVia.t) (r : PorCanton.t) :
  In r (por_canton unary_union cv) <->
  In (PorCanton.row r) (dissolve unary_union cv) /\
  PorCanton.densidad r =
    (Dissolve.longitud (PorCanton.row r) / Dissolve.area (PorCanton.row r))%Qc.
Proof.
  unfold por_canton, add_densidad. rewrite in_map_iff. split.
  - intros [d [<- Hd]]. simpl. auto.
  - intros [Hd E]. exists (PorCanton.row r). split; [ | assumption].
    destruct r as [d q]. simpl in *. now subst.
Qed.

(** C1 (lines 108-116).  A row of [por_canton] stands for a canton that
    has rows in [cantones_vias]; its [longitud] is the sum of their
    lengths (km), its [area] is the area (km2) of a row of the canton
    layer with that name, and its [densidad] is the one divided by the
    other.  A canton that no road of the frame intersects has no row in
    [por_canton], so no density is computed for it. *)
Theorem C1_densidad_is_longitud_over_area
    (vias : list Via.t) (cantones : list Canton.t) :
  (forall r,
      In r (por_canton unary_union
              (cantones_vias geometry_length intersection vias cantones)) ->
      exists x rest c,
        group_of String.eqb canton_of (Dissolve.canton (PorCanton.row r))
          (cantones_vias geometry_length intersection vias cantones) = x :: rest /\
        In c cantones /\
        Canton.canton c = Dissolve.canton (PorCanton.row r) /\
        Dissolve.area (PorCanton.row r) = Canton.area c /\
        Dissolve.longitud (PorCanton.row r) = sum (map CantonVia.longitud (x :: rest)) /\
        PorCanton.densidad r =
          (sum (map CantonVia.longitud (x :: rest)) / Canton.area c)%Qc) /\
  (forall name,
      (forall v c,
          In v vias -> In c cantones -> Canton.canton c = name ->
          intersection (Via.geometry v) (Canton.geometry c) = None) ->
      forall r,
        In r (por_canton unary_union
                (cantones_vias geometry_length intersection vias cantones)) ->
        Dissolve.canton (PorCanton.row r) <> name).
Proof.
  split.
  - intros r Hr. apply por_canton_In in Hr. destruct Hr as [Hd Hq].
    apply dissolve_In in Hd. destruct Hd as [x [rest [E Hrow]]].
    assert (Hx : In x (cantones_vias geometry_length intersection vias cantones)).
    { apply (group_of_In String.eqb canton_of String.eqb_eq _
               (Dissolve.canton (PorCanton.row r)) x).
      rewrite E. now left. }
    apply cantones_vias_In in Hx. destruct Hx as [v [c [g [Hv [Hc [Hg Hxeq]]]]]].
    exists x, rest, c. rewrite Hq. rewrite Hrow in E |- *.
    subst x. cbn [Dissolve.canton Dissolve.area Dissolve.longitud
                  CantonVia.row Overlay.canton Overlay.area] in E |- *.
    repeat split; try assumption; try reflexivity.
  - intros name Hn r Hr Heq.
    apply por_canton_In in Hr. destruct Hr as [Hd _].
    apply dissolve_In in Hd. destruct Hd as [x [rest [E _]]].
    assert (Hx : In x (group_of String.eqb canton_of (Dissolve.canton (PorCanton.row r))
                         (cantones_vias geometry_length intersection vias cantones))).
    { rewrite E. now left. }
    apply (group_of_In String.eqb canton_of String.eqb_eq) in Hx.
    destruct Hx as [Hx Hc].
    apply cantones_vias_In in Hx. destruct Hx as [v [c [g [Hv [Hcin [Hg ->]]]]]].
    unfold canton_of in Hc. cbn [CantonVia.row Overlay.canton] in Hc.
    rewrite (Hn v c Hv Hcin) in Hg; [discriminate Hg | congruence].
Qed.

Lemma flat_map_singletons {A B : Type} (f : A -> list B) (g : A -> B) (l : list A) :
  (forall a, In a l -> f a = [g a]) -> flat_map f l = map g l.
Proof.
  induction l as [|a l IH]; intros H; simpl.
  - reflexivity.
  - rewrite (H a) by now left. simpl. f_equal. apply IH.
    intros b Hb. apply H. now right.
Qed.

(** [por_categoria] has one row per key of [cantones_vias]: the area of
    the first row of the group and the sum of the lengths of its rows. *)
Lemma por_categoria_rows (cv : list CantonVia.t) :
  exists areas : string * string -> num,
    (forall k x rest,
        group_of pair_eqb clave k cv = x :: rest ->
        areas k = Overlay.area (CantonVia.row x)) /\
    por_categoria cv =
    map (fun k => PorCategoria.mk (fst k) (snd k) (areas k)
                    (group_sum pair_eqb clave CantonVia.longitud k cv))
        (sort pair_leb (unique pair_eqb (map clave cv))).
Proof.
  exists (fun k => match group_of pair_eqb clave k cv with
                   | x :: _ => Overlay.area (CantonVia.row x)
                   | [] => 0%Qc
                   end).
  split.
  - intros k x rest E. rewrite E. reflexivity.
  - unfold por_categoria, groupby. rewrite flat_map_concat_map, map_map.
    rewrite <- flat_map_concat_map. apply flat_map_singletons.
    intros k Hk. cbn [fst snd].
    apply (proj1 (sort_In pair_leb _ _)) in Hk.
    apply (proj1 (unique_In pair_eqb pair_eqb_eq _ _)) in Hk.
    destruct (group_of_occurs pair_eqb clave pair_eqb_eq cv k Hk) as [x [rest E]].
    unfold group_sum. rewrite E. reflexivity.
Qed.

(** C3 (lines 103-115).  For every canton of [por_canton], the lengths
    of the rows of [por_categoria] for that canton add up to the
    canton's [longitud] in [por_canton]. *)
Theorem C3_por_categoria_adds_up_to_por_canton
    (cv : list CantonVia.t) (r : PorCanton.t) :
  In r (por_canton unary_union cv) ->
  sum (map PorCategoria.longitud
         (filter (fun p => (PorCategoria.canton p =? Dissolve.canton (PorCanton.row r))%string)
                 (por_categoria cv))) =
  Dissolve.longitud (PorCanton.row r).
Proof.
  intros Hr. apply por_canton_In in Hr. destruct Hr as [Hd _].
  apply dissolve_In in Hd. destruct Hd as [x [rest [E Hrow]]].
  set (c := Dissolve.canton (PorCanton.row r)) in *.
  assert (Hlon : Dissolve.longitud (PorCanton.row r) =
                 sum (map CantonVia.longitud (group_of String.eqb canton_of c cv))).
  { rewrite E, Hrow. reflexivity. }
  rewrite Hlon. clear Hlon Hrow E x rest.
  destruct (por_categoria_rows cv) as [areas [_ ->]].
  set (keys := sort pair_leb (unique pair_eqb (map clave cv))).
  rewrite filter_map_swap, map_map. cbn [PorCategoria.canton PorCategoria.longitud].
  assert (Hnd : NoDup (filter (fun k : string * string => (fst k =? c)%string) keys)).
  { apply NoDup_filter. apply sort_NoDup, unique_NoDup, pair_eqb_eq. }
  rewrite (group_sums_total pair_eqb clave pair_eqb_eq CantonVia.longitud _ cv Hnd).
  f_equal. f_equal. unfold group_of. apply filter_ext_in.
  intros y Hy.
  destruct (canton_of y =? c)%string eqn:Hc.
  - apply (mem_In pair_eqb pair_eqb_eq). apply filter_In. split.
    + apply (proj2 (sort_In pair_leb _ _)).
      apply (proj2 (unique_In pair_eqb pair_eqb_eq _ _)).
      now apply in_map.
    + exact Hc.
  - apply (mem_not_In pair_eqb pair_eqb_eq). intros Hin.
    apply filter_In in Hin. destruct Hin as [_ Hin].
    unfold clave in Hin. simpl in Hin. unfold canton_of in Hc. congruence.
Qed.

(** *** The category filter *)

Lemma filtrar_In (filtro_categoria : string) (vias : list Via.t) (v : Via.t) :
  In v (filtrar filtro_categoria vias) <->
  In v vias /\ Via.categoria v = filtro_categoria.
Proof.
  unfold filtrar. rewrite filter_In, String.eqb_eq. reflexivity.
Qed.

Lemma lista_categorias_In (vias : list Via.t) (c : string) :
  In c (lista_categorias vias) <-> In c (map Via.categoria vias).
Proof.
  unfold lista_categorias. split; intros H.
  - apply (proj1 (sort_In String.leb _ _)) in H.
    now apply (proj1 (unique_In String.eqb String.eqb_eq _ _)) in H.
  - apply (proj2 (sort_In String.leb _ _)).
    now apply (proj2 (unique_In String.eqb String.eqb_eq _ _)).
Qed.

(** C10 (lines 83-85, 94).  The options of the selector are the
    distinct categories of the road rows, in ascending order, and
    filtering the roads by any of them leaves at least one row. *)
Theorem C10_selectable_category_has_rows (vias : list Via.t) :
  NoDup (lista_categorias vias) /\
  Sorted (le String.leb) (lista_categorias vias) /\
  (forall c, In c (lista_categorias vias) <-> In c (map Via.categoria vias)) /\
  (forall c pick,
      selectbox (lista_categorias vias) pick = Some c ->
      exists v rest, filtrar c vias = v :: rest).
Proof.
  split; [ | split; [ | split]].
  - apply sort_NoDup, unique_NoDup, String.eqb_eq.
  - apply sort_sorted, String.leb_total.
  - apply lista_categorias_In.
  - intros c pick Hsel. unfold selectbox in Hsel.
    apply nth_error_In in Hsel. apply lista_categorias_In in Hsel.
    apply in_map_iff in Hsel. destruct Hsel as [v [Hc Hv]].
    assert (Hin : In v (filtrar c vias)) by (apply filtrar_In; auto).
    destruct (filtrar c vias) as [|w rest]; [contradiction | eauto].
Qed.

Lemma filter_singleton {A : Type} (f : A -> bool) (l : list A) (x : A) :
  NoDup l -> In x l -> f x = true ->
  (forall y, In y l -> f y = true -> y = x) ->
  filter f l = [x].
Proof.
  induction l as [|y l IH]; intros Hnd Hin Hx Hu.
  - destruct Hin.
  - inversion Hnd as [|? ? Hy Hnd']; subst. simpl.
    destruct (f y) eqn:Hfy.
    + assert (y = x) by (apply Hu; [now left | assumption]). subst y.
      f_equal. destruct (filter f l) as [|z t] eqn:E; [reflexivity | exfalso].
      assert (Hz : In z (filter f l)) by (rewrite E; now left).
      apply filter_In in Hz. destruct Hz as [Hz Hfz].
      assert (z = x) by (apply Hu; [now right | assumption]). subst z.
      contradiction.
    + destruct Hin as [-> | Hin]; [congruence | ].
      apply IH; try assumption.
      intros z Hz Hfz. apply Hu; [now right | assumption].
Qed.

(** After the filter there is one category, so [por_categoria] has one
    row for each canton of [por_canton], with the same area and the same
    sum of the same rows. *)
Lemma por_categoria_one_row_per_canton
    (vias : list Via.t) (cantones : list Canton.t)
    (filtro_categoria : string) (p : PorCanton.t) :
  In p (por_canton unary_union
          (cantones_vias geometry_length intersection
             (filtrar filtro_categoria vias) cantones)) ->
  filter (fun q => (PorCategoria.canton q =? Dissolve.canton (PorCanton.row p))%string)
         (por_categoria
            (cantones_vias geometry_length intersection
               (filtrar filtro_categoria vias) cantones)) =
  [PorCategoria.mk (Dissolve.canton (PorCanton.row p)) filtro_categoria
                   (Dissolve.area (PorCanton.row p))
                   (Dissolve.longitud (PorCanton.row p))].
Proof.
  set (cv := cantones_vias geometry_length intersection
               (filtrar filtro_categoria vias) cantones).
  intros Hp.
  assert (Hcat : forall y, In y cv ->
                           Overlay.categoria (CantonVia.row y) = filtro_categoria).
  { intros y Hy. apply cantones_vias_In in Hy.
    destruct Hy as [v [c [g [Hv [_ [_ ->]]]]]]. simpl.
    apply filtrar_In in Hv. tauto. }
  apply por_canton_In in Hp. destruct Hp as [Hd _].
  apply dissolve_In in Hd. destruct Hd as [x [rest [E Hrow]]].
  set (c := Dissolve.canton (PorCanton.row p)) in *.
  assert (Hx : In x cv /\ canton_of x = c).
  { apply (group_of_In String.eqb canton_of String.eqb_eq). rewrite E. now left. }
  destruct Hx as [Hx Hxc].
  assert (Hg : group_of pair_eqb clave (c, filtro_categoria) cv = x :: rest).
  { rewrite <- E. unfold group_of. apply filter_ext_in. intros y Hy.
    unfold pair_eqb, clave, canton_of. cbn [fst snd].
    rewrite (Hcat y Hy), String.eqb_refl. apply andb_true_r. }
  destruct (por_categoria_rows cv) as [areas [Hareas ->]].
  rewrite filter_map_swap. cbn [PorCategoria.canton].
  rewrite (filter_singleton _ _ (c, filtro_categoria)).
  - cbn [map fst snd]. unfold group_sum. rewrite Hg, (Hareas _ _ _ Hg).
    rewrite Hrow. reflexivity.
  - apply sort_NoDup, unique_NoDup, pair_eqb_eq.
  - apply (proj2 (sort_In pair_leb _ _)).
    apply (proj2 (unique_In pair_eqb pair_eqb_eq _ _)).
    apply in_map_iff. exists x. split; [ | assumption].
    unfold clave. rewrite (Hcat x Hx). unfold canton_of in Hxc. now rewrite Hxc.
  - apply String.eqb_refl.
  - intros k Hk Hkc. apply String.eqb_eq in Hkc.
    apply (proj1 (sort_In pair_leb _ _)) in Hk.
    apply (proj1 (unique_In pair_eqb pair_eqb_eq _ _)) in Hk.
    apply in_map_iff in Hk. destruct Hk as [y [<- Hy]].
    unfold clave in *. cbn [fst] in Hkc. rewrite (Hcat y Hy), Hkc. reflexivity.
Qed.

(** *** The table never raises *)

Lemma por_categoria_keys (cv : list CantonVia.t) :
  map (fun r => (PorCategoria.canton r, PorCategoria.categoria r)) (por_categoria cv) =
  sort pair_leb (unique pair_eqb (map clave cv)).
Proof.
  destruct (por_categoria_rows cv) as [areas [_ ->]].
  rewrite map_map. cbn [PorCategoria.canton PorCategoria.categoria].
  rewrite <- (map_id (sort pair_leb (unique pair_eqb (map clave cv)))) at 2.
  apply map_ext. intros [a b]. reflexivity.
Qed.

Lemma pivot_never_raises (cv : list CantonVia.t) :
  exists p, pivot (por_categoria cv) = inr p.
Proof.
  unfold pivot, has_duplicates. rewrite por_categoria_keys.
  rewrite (unique_fixed pair_eqb pair_eqb_eq)
    by (apply sort_NoDup, unique_NoDup, pair_eqb_eq).
  rewrite Nat.eqb_refl. simpl. eauto.
Qed.

Lemma tabla_never_raises (cv : list CantonVia.t) :
  exists t, tabla (por_categoria cv) (por_canton unary_union cv) = inr t.
Proof.
  unfold tabla. destruct (pivot_never_raises cv) as [p ->]. simpl. eauto.
Qed.

(** *** The script, step by step *)

Lemma linea_101_rows (rows : list Overlay.t) :
  rows <> [] -> linea_101 geometry_length rows = inr (add_longitud geometry_length rows).
Proof.
  destruct rows; [congruence | reflexivity].
Qed.

Lemma linea_101_empty : linea_101 geometry_length [] = inl TypeError.
Proof. reflexivity. Qed.

Lemma principal_loaded (fs : filesystem) (pick : nat)
    (lv lv' lc lc' : layer) (filtro_categoria : string) :
  read_file fs vias_path = inr lv ->
  loc vias_columns lv = inr lv' ->
  read_file fs cantones_path = inr lc ->
  loc cantones_columns lc = inr lc' ->
  selectbox (lista_categorias (vias_rows lv')) pick = Some filtro_categoria ->
  overlay intersection (filtrar filtro_categoria (vias_rows lv'))
          (cantones_rows geometry_area_perimeter lc') <> [] ->
  exists t,
    tabla (por_categoria
             (cantones_vias geometry_length intersection
                (filtrar filtro_categoria (vias_rows lv'))
                (cantones_rows geometry_area_perimeter lc')))
          (por_canton unary_union
             (cantones_vias geometry_length intersection
                (filtrar filtro_categoria (vias_rows lv'))
                (cantones_rows geometry_area_perimeter lc'))) = inr t /\
    principal geometry_area_perimeter geometry_length intersection unary_union
              fs pick =
    inr (mk_salidas
           ("Tabla de vías tipo " ++ lower filtro_categoria)
           (filtrar filtro_categoria (vias_rows lv'))
           (cantones_vias geometry_length intersection
              (filtrar filtro_categoria (vias_rows lv'))
              (cantones_rows geometry_area_perimeter lc'))
           (por_categoria
              (cantones_vias geometry_length intersection
                 (filtrar filtro_categoria (vias_rows lv'))
                 (cantones_rows geometry_area_perimeter lc')))
           (por_canton unary_union
              (cantones_vias geometry_length intersection
                 (filtrar filtro_categoria (vias_rows lv'))
                 (cantones_rows geometry_area_perimeter lc')))
           t
           (top_15
              (por_canton unary_union
                 (cantones_vias geometry_length intersection
                    (filtrar filtro_categoria (vias_rows lv'))
                    (cantones_rows geometry_area_perimeter lc'))))
           (por_canton_pie
              (por_canton unary_union
                 (cantones_vias geometry_length intersection
                    (filtrar filtro_categoria (vias_rows lv'))
                    (cantones_rows geometry_area_perimeter lc'))))).
Proof.
  intros Hv Hv' Hc Hc' Hsel Hne.
  destruct (tabla_never_raises
              (cantones_vias geometry_length intersection
                 (filtrar filtro_categoria (vias_rows lv'))
                 (cantones_rows geometry_area_perimeter lc'))) as [t Ht].
  exists t. split; [exact Ht | ].
  unfold principal. rewrite Hv. cbn [bind]. rewrite Hv'. cbn [bind].
  rewrite Hc. cbn [bind]. rewrite Hc'. cbn [bind].
  rewrite Hsel, (linea_101_rows _ Hne). cbn [bind].
  fold (cantones_vias geometry_length intersection
          (filtrar filtro_categoria (vias_rows lv'))
          (cantones_rows geometry_area_perimeter lc')).
  rewrite Ht. reflexivity.
Qed.

Lemma principal_inv (fs : filesystem) (pick : nat) (s : salidas) :
  principal geometry_area_perimeter geometry_length intersection unary_union
            fs pick = inr s ->
  exists lv lv' lc lc' filtro_categoria,
    read_file fs vias_path = inr lv /\
    loc vias_columns lv = inr lv' /\
    read_file fs cantones_path = inr lc /\
    loc cantones_columns lc = inr lc' /\
    selectbox (lista_categorias (vias_rows lv')) pick = Some filtro_categoria /\
    overlay intersection (filtrar filtro_categoria (vias_rows lv'))
            (cantones_rows geometry_area_perimeter lc') <> [].
Proof.
  unfold principal. intros H.
  destruct (read_file fs vias_path) as [e|lv] eqn:E1; [discriminate | ].
  cbn [bind] in H.
  destruct (loc vias_columns lv) as [e|lv'] eqn:E2; [discriminate | ].
  cbn [bind] in H.
  destruct (read_file fs cantones_path) as [e|lc] eqn:E3; [discriminate | ].
  cbn [bind] in H.
  destruct (loc cantones_columns lc) as [e|lc'] eqn:E4; [discriminate | ].
  cbn [bind] in H.
  destruct (selectbox (lista_categorias (vias_rows lv')) pick) as [f|] eqn:E5;
    [ | discriminate].
  exists lv, lv', lc, lc', f.
  do 5 (split; [first [assumption | reflexivity] | ]).
  intros Hnil. rewrite Hnil in H. discriminate H.
Qed.

(** C5 (lines 86, 94).  A run that gets through keeps exactly the road
    rows whose stored category is equal, as a string, to the option the
    user picked; the rest of the processing starts from those rows.  The
    lower-cased copy of the option goes into the heading only. *)
Theorem C5_filter_is_exact_match (fs : filesystem) (pick : nat) (s : salidas) :
  principal geometry_area_perimeter geometry_length intersection unary_union
            fs pick = inr s ->
  exists lv lv' lc lc' filtro_categoria,
    read_file fs vias_path = inr lv /\
    loc vias_columns lv = inr lv' /\
    read_file fs cantones_path = inr lc /\
    loc cantones_columns lc = inr lc' /\
    selectbox (lista_categorias (vias_rows lv')) pick = Some filtro_categoria /\
    vias_filtradas s =
      filter (fun v => (Via.categoria v =? filtro_categoria)%string) (vias_rows lv') /\
    (forall v, In v (vias_filtradas s) <->
               In v (vias_rows lv') /\ Via.categoria v = filtro_categoria) /\
    s_cantones_vias s =
      cantones_vias geometry_length intersection (vias_filtradas s)
                    (cantones_rows geometry_area_perimeter lc') /\
    titulo_tabla s = "Tabla de vías tipo " ++ lower filtro_categoria.
Proof.
  intros H.
  destruct (principal_inv fs pick s H)
    as [lv [lv' [lc [lc' [f [H1 [H2 [H3 [H4 [H5 H6]]]]]]]]]].
  destruct (principal_loaded fs pick lv lv' lc lc' f H1 H2 H3 H4 H5 H6) as [t [_ Hp]].
  rewrite Hp in H. inversion H; subst s; clear H.
  exists lv, lv', lc, lc', f. cbn [vias_filtradas s_cantones_vias titulo_tabla].
  do 5 (split; [assumption | ]).
  split; [reflexivity | ].
  split; [intros v; apply filtrar_In | ].
  split; reflexivity.
Qed.

(** C6 (lines 100-116, 126-127), as the script behaves.  When the layers
    load, a category is picked and none of its roads intersects any
    canton, the overlay has no row and the run stops at line 101 with
    [TypeError]: no aggregate and no table is produced. *)
Theorem C6_no_intersection_stops_at_line_101
    (fs : filesystem) (pick : nat) (lv lv' lc lc' : layer)
    (filtro_categoria : string) :
  read_file fs vias_path = inr lv ->
  loc vias_columns lv = inr lv' ->
  read_file fs cantones_path = inr lc ->
  loc cantones_columns lc = inr lc' ->
  selectbox (lista_categorias (vias_rows lv')) pick = Some filtro_categoria ->
  (forall v c,
      In v (filtrar filtro_categoria (vias_rows lv')) ->
      In c (cantones_rows geometry_area_perimeter lc') ->
      intersection (Via.geometry v) (Canton.geometry c) = None) ->
  overlay intersection (filtrar filtro_categoria (vias_rows lv'))
          (cantones_rows geometry_area_perimeter lc') = [] /\
  principal geometry_area_perimeter geometry_length intersection unary_union
            fs pick = inl TypeError.
Proof.
  intros H1 H2 H3 H4 H5 Hnone.
  assert (Hnil := overlay_nil _ _ Hnone).
  split; [exact Hnil | ].
  unfold principal. rewrite H1. cbn [bind]. rewrite H2. cbn [bind].
  rewrite H3. cbn [bind]. rewrite H4. cbn [bind].
  rewrite H5, Hnil. reflexivity.
Qed.

(** *** Loading *)

Lemma read_file_recode (c : string) (fs : filesystem) (path : string) :
  read_file (recode c fs) path =
  match read_file fs path with
  | inl e => inl e
  | inr l => inr (with_crs c l)
  end.
Proof.
  unfold read_file, recode. destruct (fs path) as [[|l]|]; reflexivity.
Qed.

Lemma loc_with_crs (c : string) (want : list string) (l : layer) :
  loc want (with_crs c l) =
  match loc want l with
  | inl e => inl e
  | inr l' => inr (with_crs c l')
  end.
Proof.
  unfold loc. simpl. destruct (missing_column want (columns l)); reflexivity.
Qed.

Lemma principal_raises_of_vias (fs : filesystem) (pick : nat) (e : exn) :
  read_file fs vias_path = inl e ->
  principal geometry_area_perimeter geometry_length intersection unary_union
            fs pick = inl e.
Proof.
  intros H. unfold principal. rewrite H. reflexivity.
Qed.

Lemma principal_raises_of_cantones (fs : filesystem) (pick : nat)
    (lv lv' : layer) (e : exn) :
  read_file fs vias_path = inr lv ->
  loc vias_columns lv = inr lv' ->
  read_file fs cantones_path = inl e ->
  principal geometry_area_perimeter geometry_length intersection unary_union
            fs pick = inl e.
Proof.
  intros H1 H2 H3. unfold principal. rewrite H1. cbn [bind].
  rewrite H2. cbn [bind]. rewrite H3. reflexivity.
Qed.

Lemma principal_recode (c : string) (fs : filesystem) (pick : nat) :
  principal geometry_area_perimeter geometry_length intersection unary_union
            (recode c fs) pick =
  principal geometry_area_perimeter geometry_length intersection unary_union
            fs pick.
Proof.
  unfold principal. rewrite !read_file_recode.
  destruct (read_file fs vias_path) as [e|lv]; [reflexivity | ]. cbn [bind].
  rewrite loc_with_crs.
  destruct (loc vias_columns lv) as [e|lv']; [reflexivity | ]. cbn [bind].
  destruct (read_file fs cantones_path) as [e|lc]; [reflexivity | ]. cbn [bind].
  rewrite loc_with_crs.
  destruct (loc cantones_columns lc) as [e|lc']; reflexivity.
Qed.

(** C7 (lines 67-69, 74-76), as the script has it.  A run aborts with
    the loader's exception, before anything is computed, when a file is
    missing or does not parse, and with a [KeyError] when a layer lacks
    a wanted column.  The CRS a layer declares is never looked at:
    the same files declaring any other CRS give the same run. *)
Theorem C7_load_errors_abort_and_crs_is_ignored (fs : filesystem) (pick : nat) :
  (fs vias_path = None ->
   principal geometry_area_perimeter geometry_length intersection unary_union
             fs pick = inl (FileNotFoundError vias_path)) /\
  (fs vias_path = Some Unreadable ->
   principal geometry_area_perimeter geometry_length intersection unary_union
             fs pick = inl (DriverError vias_path)) /\
  (forall lv c,
      fs vias_path = Some (GeoJSON lv) ->
      missing_column vias_columns (columns lv) = Some c ->
      principal geometry_area_perimeter geometry_length intersection unary_union
                fs pick = inl (KeyError c)) /\
  (forall lv lv',
      read_file fs vias_path = inr lv ->
      loc vias_columns lv = inr lv' ->
      (fs cantones_path = None ->
       principal geometry_area_perimeter geometry_length intersection unary_union
                 fs pick = inl (FileNotFoundError cantones_path)) /\
      (fs cantones_path = Some Unreadable ->
       principal geometry_area_perimeter geometry_length intersection unary_union
                 fs pick = inl (DriverError cantones_path)) /\
      (forall lc c,
          fs cantones_path = Some (GeoJSON lc) ->
          missing_column cantones_columns (columns lc) = Some c ->
          principal geometry_area_perimeter geometry_length intersection unary_union
                    fs pick = inl (KeyError c))) /\
  (forall c,
      principal geometry_area_perimeter geometry_length intersection unary_union
                (recode c fs) pick =
      principal geometry_area_perimeter geometry_length intersection unary_union
                fs pick).
Proof.
  split; [ | split; [ | split; [ | split]]].
  - intros H. apply principal_raises_of_vias. unfold read_file. now rewrite H.
  - intros H. apply principal_raises_of_vias. unfold read_file. now rewrite H.
  - intros lv c H Hm. unfold principal, read_file. rewrite H. cbn [bind ret].
    unfold loc. rewrite Hm. reflexivity.
  - intros lv lv' H1 H2. split; [ | split].
    + intros H. apply (principal_raises_of_cantones fs pick lv lv'); try assumption.
      unfold read_file. now rewrite H.
    + intros H. apply (principal_raises_of_cantones fs pick lv lv'); try assumption.
      unfold read_file. now rewrite H.
    + intros lc c H Hm. unfold principal. rewrite H1. cbn [bind].
      rewrite H2. cbn [bind]. unfold read_file. rewrite H. cbn [bind ret].
      unfold loc. rewrite Hm. reflexivity.
  - intros c. apply principal_recode.
Qed.

(** *** Areas *)





(** *** One area per canton *)

(** C9 (lines 100-115), as the script has it.  When the rows of the
    canton layer that share a name share their area (as when names are
    not repeated), the rows of [cantones_vias] that share a canton share
    their area, and the area ['first'] picks for a canton of [por_canton]
    is the area of every row of that canton. *)
Theorem C9_area_constant_within_canton
    (vias : list Via.t) (cantones : list Canton.t) :
  (forall c1 c2,
      In c1 cantones -> In c2 cantones ->
      Canton.canton c1 = Canton.canton c2 -> Canton.area c1 = Canton.area c2) ->
  (forall r1 r2,
      In r1 (cantones_vias geometry_length intersection vias cantones) ->
      In r2 (cantones_vias geometry_length intersection vias cantones) ->
      canton_of r1 = canton_of r2 ->
      Overlay.area (CantonVia.row r1) = Overlay.area (CantonVia.row r2)) /\
  (forall p x,
      In p (por_canton unary_union
              (cantones_vias geometry_length intersection vias cantones)) ->
      In x (cantones_vias geometry_length intersection vias cantones) ->
      canton_of x = Dissolve.canton (PorCanton.row p) ->
      Dissolve.area (PorCanton.row p) = Overlay.area (CantonVia.row x)).
Proof.
  intros Huniq.
  assert (Hrows : forall r1 r2,
             In r1 (cantones_vias geometry_length intersection vias cantones) ->
             In r2 (cantones_vias geometry_length intersection vias cantones) ->
             canton_of r1 = canton_of r2 ->
             Overlay.area (CantonVia.row r1) = Overlay.area (CantonVia.row r2)).
  { intros r1 r2 H1 H2 Heq.
    apply cantones_vias_In in H1. destruct H1 as [v1 [c1 [g1 [_ [Hc1 [_ ->]]]]]].
    apply cantones_vias_In in H2. destruct H2 as [v2 [c2 [g2 [_ [Hc2 [_ ->]]]]]].
    unfold canton_of in Heq. simpl in *. now apply Huniq. }
  split; [exact Hrows | ].
  intros p x Hp Hx Heq.
  apply por_canton_In in Hp. destruct Hp as [Hd _].
  apply dissolve_In in Hd. destruct Hd as [y [rest [E Hrow]]].
  assert (Hy : In y (group_of String.eqb canton_of (Dissolve.canton (PorCanton.row p))
                       (cantones_vias geometry_length intersection vias cantones))).
  { rewrite E. now left. }
  apply (group_of_In String.eqb canton_of String.eqb_eq) in Hy.
  destruct Hy as [Hy Hcy].
  rewrite Hrow at 1. cbn [Dissolve.area].
  apply Hrows; [assumption | assumption | congruence].
Qed.

(** *** The pie chart *)

Lemma relabel_split {A : Type} (g : A -> A) (t : nat) (l : list A) (n : nat) :
  map (fun ir : nat * A => if (t <=? fst ir)%nat then g (snd ir) else snd ir)
      (combine (seq n (List.length l)) l) =
  (firstn (t - n) l ++ map g (skipn (t - n) l))%list.
Proof.
  revert n. induction l as [|x l IH]; intros n; simpl.
  - now rewrite firstn_nil, skipn_nil.
  - rewrite IH. destruct (Nat.leb_spec t n) as [Hle | Hlt].
    + replace (t - n)%nat with 0%nat by lia.
      replace (t - S n)%nat with 0%nat by lia. reflexivity.
    + replace (t - n)%nat with (S (t - S n)) by lia. reflexivity.
Qed.

Lemma firstn_of_split {A : Type} (g : A -> A) (n : nat) (l : list A) :
  firstn n (firstn n l ++ map g (skipn n l)) = firstn n l.
Proof.
  revert l. induction n as [|n IH]; intros [|x l]; simpl; try reflexivity.
  now rewrite IH.
Qed.

Lemma skipn_of_split {A : Type} (g : A -> A) (n : nat) (l : list A) :
  skipn n (firstn n l ++ map g (skipn n l)) = map g (skipn n l).
Proof.
  revert l. induction n as [|n IH]; intros [|x l]; simpl; try reflexivity.
  now rewrite IH.
Qed.

Lemma por_canton_pie_split (pc : list PorCanton.t) :
  por_canton_pie pc =
  (firstn 15 (sort_values_desc pc) ++
   map (set_canton otros) (skipn 15 (sort_values_desc pc)))%list.
Proof.
  unfold por_canton_pie.
  apply (relabel_split (set_canton otros) 15 (sort_values_desc pc) 0).
Qed.

Lemma longitud_set_canton (name : string) (l : list PorCanton.t) :
  map (fun r => Dissolve.longitud (PorCanton.row r)) (map (set_canton name) l) =
  map (fun r => Dissolve.longitud (PorCanton.row r)) l.
Proof. rewrite map_map. reflexivity. Qed.

(** The rows ranked 16th and lower carry what the first 15 leave of the
    total. *)
Lemma rest_is_total_minus_top_15 (pc : list PorCanton.t) :
  sum (map (fun r => Dissolve.longitud (PorCanton.row r))
           (skipn 15 (sort_values_desc pc))) =
  (sum (map (fun r => Dissolve.longitud (PorCanton.row r)) pc) -
   sum (map snd (top_15 pc)))%Qc.
Proof.
  unfold top_15, nlargest. rewrite map_map. cbn [snd].
  rewrite (sum_perm (map (fun r => Dissolve.longitud (PorCanton.row r)) pc)
                    (map (fun r => Dissolve.longitud (PorCanton.row r))
                         (sort_values_desc pc)))
    by (apply Permutation_map, Permutation_sym, sort_perm).
  rewrite <- (firstn_skipn 15 (sort_values_desc pc)) at 2.
  rewrite map_app, sum_app. ring.
Qed.

Lemma In_firstn {A : Type} (n : nat) (l : list A) (x : A) :
  In x (firstn n l) -> In x l.
Proof.
  intros H. rewrite <- (firstn_skipn n l). apply in_or_app. now left.
Qed.

Lemma filter_none {A : Type} (f : A -> bool) (l : list A) :
  (forall x, In x l -> f x = false) -> filter f l = [].
Proof.
  induction l as [|x l IH]; intros H; simpl.
  - reflexivity.
  - rewrite (H x) by now left. apply IH. intros y Hy. apply H. now right.
Qed.

Lemma filter_all {A : Type} (f : A -> bool) (l : list A) :
  (forall x, In x l -> f x = true) -> filter f l = l.
Proof.
  induction l as [|x l IH]; intros H; simpl.
  - reflexivity.
  - rewrite (H x) by now left. f_equal. apply IH. intros y Hy. apply H. now right.
Qed.

(** Descending order leaves no choice of values: two descending
    arrangements of the same numbers are the same list. *)
Lemma descending_unique (l1 l2 : list num) :
  Permutation l1 l2 ->
  StronglySorted (fun a b => (b <= a)%Qc) l1 ->
  StronglySorted (fun a b => (b <= a)%Qc) l2 ->
  l1 = l2.
Proof.
  revert l2. induction l1 as [|a l1 IH]; intros l2 Hp H1 H2.
  - symmetry. now apply Permutation_nil.
  - destruct l2 as [|b l2].
    + apply Permutation_sym, Permutation_nil in Hp. discriminate Hp.
    + apply StronglySorted_inv in H1. destruct H1 as [H1 Ha].
      apply StronglySorted_inv in H2. destruct H2 as [H2 Hb].
      rewrite Forall_forall in Ha, Hb.
      assert (Hba : (b <= a)%Qc).
      { assert (Hin : In b (a :: l1)).
        { apply (Permutation_in b (Permutation_sym Hp)). now left. }
        destruct Hin as [<- | Hin]; [apply Qcle_refl | now apply Ha]. }
      assert (Hab : (a <= b)%Qc).
      { assert (Hin : In a (b :: l2)).
        { apply (Permutation_in a Hp). now left. }
        destruct Hin as [<- | Hin]; [apply Qcle_refl | now apply Hb]. }
      assert (E : a = b) by now apply Qcle_antisym.
      subst b. f_equal. apply IH; [ | assumption | assumption].
      now apply Permutation_cons_inv with a.
Qed.

Lemma longer_le (a b : PorCanton.t) :
  le longer a b <->
  (Dissolve.longitud (PorCanton.row b) <= Dissolve.longitud (PorCanton.row a))%Qc.
Proof.
  unfold le, longer, num_leb. apply Qle_bool_iff.
Qed.

Lemma longer_total (a b : PorCanton.t) : longer a b = true \/ longer b a = true.
Proof.
  destruct (Qclt_le_dec (Dissolve.longitud (PorCanton.row a))
                        (Dissolve.longitud (PorCanton.row b))) as [H | H].
  - right. apply longer_le. now apply Qclt_le_weak.
  - left. now apply longer_le.
Qed.

Lemma descending_values (s : list PorCanton.t) :
  Sorted (le longer) s ->
  StronglySorted (fun a b => (b <= a)%Qc)
                 (map (fun r => Dissolve.longitud (PorCanton.row r)) s).
Proof.
  intros Hs. apply Sorted_StronglySorted in Hs.
  - induction Hs as [|a l Hl IH Ha]; simpl; constructor.
    + exact IH.
    + rewrite Forall_forall in *. intros x Hx.
      apply in_map_iff in Hx. destruct Hx as [r [<- Hr]].
      apply longer_le. now apply Ha.
  - intros a b c Hab Hbc. apply longer_le. apply longer_le in Hab, Hbc.
    now apply Qcle_trans with (Dissolve.longitud (PorCanton.row b)).
Qed.

(** Whatever order [sort_values] leaves rows of equal length in, the
    column of lengths comes out the same. *)
Lemma sort_values_desc_values (pc s : list PorCanton.t) :
  Permutation s pc -> Sorted (le longer) s ->
  map (fun r => Dissolve.longitud (PorCanton.row r)) s =
  map (fun r => Dissolve.longitud (PorCanton.row r)) (sort_values_desc pc).
Proof.
  intros Hp Hs. apply descending_unique.
  - apply Permutation_map. apply perm_trans with pc; [assumption | ].
    apply Permutation_sym, sort_perm.
  - now apply descending_values.
  - apply descending_values, sort_sorted, longer_total.
Qed.

(** C8 (lines 144, 161-162).  In the pie data the first 15 rows are the
    15 longest cantons under their own names and every later row is
    named 'Otros cantones'; the lengths of those later rows add up to
    the total over all cantons minus the sum of [top_15].  When no
    canton is itself called 'Otros cantones', that is the size of the
    slice of that name.  The sum is the same for any descending
    arrangement of the rows, however rows of equal length are ordered. *)
Theorem C8_otros_is_total_minus_top_15 (pc : list PorCanton.t) :
  firstn 15 (por_canton_pie pc) = firstn 15 (sort_values_desc pc) /\
  (forall r, In r (skipn 15 (por_canton_pie pc)) ->
             Dissolve.canton (PorCanton.row r) = otros) /\
  sum (map (fun r => Dissolve.longitud (PorCanton.row r))
           (skipn 15 (por_canton_pie pc))) =
    (sum (map (fun r => Dissolve.longitud (PorCanton.row r)) pc) -
     sum (map snd (top_15 pc)))%Qc /\
  ((forall r, In r pc -> Dissolve.canton (PorCanton.row r) <> otros) ->
   pie_slice otros (por_canton_pie pc) =
     (sum (map (fun r => Dissolve.longitud (PorCanton.row r)) pc) -
      sum (map snd (top_15 pc)))%Qc) /\
  (forall s,
      Permutation s pc -> Sorted (le longer) s ->
      sum (map (fun r => Dissolve.longitud (PorCanton.row r)) (skipn 15 s)) =
        (sum (map (fun r => Dissolve.longitud (PorCanton.row r)) pc) -
         sum (map snd (top_15 pc)))%Qc).
Proof.
  rewrite por_canton_pie_split.
  rewrite firstn_of_split, skipn_of_split.
  split; [reflexivity | ]. split; [ | split; [ | split]].
  - intros r Hr. apply in_map_iff in Hr. destruct Hr as [x [<- _]]. reflexivity.
  - rewrite longitud_set_canton. apply rest_is_total_minus_top_15.
  - intros Hname. unfold pie_slice. rewrite filter_app.
    rewrite filter_none, filter_all.
    + simpl. rewrite longitud_set_canton. apply rest_is_total_minus_top_15.
    + intros x Hx. apply in_map_iff in Hx. destruct Hx as [y [<- _]].
      apply String.eqb_refl.
    + intros x Hx. apply String.eqb_neq. apply Hname.
      apply In_firstn in Hx.
      apply (Permutation_in x (sort_perm longer pc)). exact Hx.
  - intros s Hp Hs. rewrite <- skipn_map.
    rewrite (sort_values_desc_values pc s Hp Hs), skipn_map.
    apply rest_is_total_minus_top_15.
Qed.

End Properties.

(** ** The planar engine

    The planar stand-in engine is an engine in the sense of [Geod]: its
    signed area changes sign when a geometry is walked backwards. *)
















(** * Runs on the small maps *)

Module Corridas.
Import Ejemplo.

Example categorias : lista_categorias vias = ["AUTOPISTA"; "VEREDA"; "autopista"].
Proof. vm_compute. reflexivity. Qed.

(** Road 1 is 3 units long; it gives 1 to canton A and 2 to canton B. *)
Example longitudes_recortadas :
  map (fun r => (Overlay.codigo (CantonVia.row r), canton_of r,
                 fraccion (CantonVia.longitud r * m_per_km)))
      cv =
  [("1", "A", 1%Q); ("1", "B", 2%Q); ("2", "B", 1%Q)] /\
  fraccion (Plano.geometry_length
              (LineString [Plano.pt 0 0; Plano.pt 1 0; Plano.pt 3 0])) = 3%Q.
Proof. vm_compute. split; reflexivity. Qed.

Example por_canton_autopista :
  map (fun r => (Dissolve.canton (PorCanton.row r),
                 fraccion (Dissolve.area (PorCanton.row r) * m2_per_km2),
                 fraccion (Dissolve.longitud (PorCanton.row r) * m_per_km),
                 fraccion (PorCanton.densidad r)))
      (por_canton Plano.unary_union cv) =
  [("A", 1%Q, 1%Q, 1000%Q); ("B", 2%Q, 3%Q, 1500%Q)].
Proof. vm_compute. reflexivity. Qed.

Example pie_de_veinte :
  map (fun r => (Dissolve.canton (PorCanton.row r),
                 fraccion (Dissolve.longitud (PorCanton.row r))))
      (skipn 13 (por_canton_pie veinte)) =
  [("G", 7%Q); ("F", 6%Q); (otros, 5%Q); (otros, 4%Q); (otros, 3%Q);
   (otros, 2%Q); (otros, 1%Q)] /\
  fraccion (pie_slice otros (por_canton_pie veinte)) = 15%Q.
Proof. vm_compute. split; reflexivity. Qed.

(** The unit square walked either way: signed areas 1 and -1, area 1. *)
Example cuadrado_en_ambos_sentidos :
  fraccion (fst (Plano.geometry_area_perimeter (Plano.rect 0 0 1 1))) = 1%Q /\
  fraccion (fst (Plano.geometry_area_perimeter
                   (reverse_winding (Plano.rect 0 0 1 1)))) = (-1)%Q /\
  fraccion (area_f Plano.geometry_area_perimeter (Plano.rect 0 0 1 1)) = 1%Q /\
  fraccion (area_f Plano.geometry_area_perimeter
              (reverse_winding (Plano.rect 0 0 1 1))) = 1%Q.
Proof. vm_compute. repeat split; reflexivity. Qed.

(** Runs that stop at the loader or at the selector. *)
Example sin_archivos :
  correr (fun _ => None) 0 = inl (FileNotFoundError vias_path).
Proof. reflexivity. Qed.

Example archivo_ilegible :
  correr (fun path => if (path =? vias_path)%string then Some (GeoJSON red_vial)
                      else Some Unreadable) 0 =
  inl (DriverError cantones_path).
Proof. vm_compute. reflexivity. Qed.

Example sin_columna_codigo :
  correr (disco (mk_layer "EPSG:4326" ["categoria"] []) limite_cantonal) 0 =
  inl (KeyError "codigo").
Proof. vm_compute. reflexivity. Qed.

Example sin_vias :
  correr (disco (mk_layer "EPSG:4326" ["categoria"; "codigo"] []) limite_cantonal) 0 =
  inl AttributeError.
Proof. vm_compute. reflexivity. Qed.

(** C3 at canton B of the AUTOPISTA run. *)
Lemma C3_witness :
  exists r,
    In r (por_canton Plano.unary_union cv) /\
    sum (map PorCategoria.longitud
           (filter (fun p => (PorCategoria.canton p =? Dissolve.canton (PorCanton.row r))%string)
                   (por_categoria cv))) =
    Dissolve.longitud (PorCanton.row r).
Proof.
  assert (H : exists a b, por_canton Plano.unary_union cv = [a; b]).
  { vm_compute. eexists. eexists. reflexivity. }
  destruct H as [a [b H]]. exists b.
  assert (Hb : In b (por_canton Plano.unary_union cv)).
  { rewrite H. right. left. reflexivity. }
  split; [exact Hb | ].
  exact (C3_por_categoria_adds_up_to_por_canton Plano.unary_union cv b Hb).
Defined.


Lemma C5_witness :
  exists s,
    correr fs 0 = inr s /\
    map Via.codigo (vias_filtradas s) = ["1"; "2"] /\
    titulo_tabla s = "Tabla de vías tipo autopista".
Proof.
  assert (E : exists s, correr fs 0 = inr s).
  { vm_compute. eexists. reflexivity. }
  destruct E as [s E]. exists s. split; [exact E | ].
  destruct (C5_filter_is_exact_match
              Plano.geometry_area_perimeter Plano.geometry_length
              Plano.intersection Plano.unary_union fs 0 s E)
    as [lv [lv' [lc [lc' [f [H1 [H2 [_ [_ [H5 [Hf [_ [_ Ht]]]]]]]]]]]]].
  vm_compute in H1. injection H1 as <-.
  vm_compute in H2. injection H2 as <-.
  vm_compute in H5. injection H5 as <-.
  rewrite Hf, Ht. vm_compute. split; reflexivity.
Defined.

(** C6 on the sample disk: VEREDA is picked, and its only road lies
    outside both cantons. *)
Lemma C6_witness :
  overlay Plano.intersection (filtrar "VEREDA" vias) cantones = [] /\
  correr fs 1 = inl TypeError.
Proof.
  split; [vm_compute; reflexivity | ].
  eapply proj2.
  eapply (C6_no_intersection_stops_at_line_101
            Plano.geometry_area_perimeter Plano.geometry_length
            Plano.intersection Plano.unary_union
            fs 1 red_vial _ limite_cantonal _ "VEREDA").
  - reflexivity.
  - reflexivity.
  - reflexivity.
  - reflexivity.
  - vm_compute. reflexivity.
  - intros v c Hv Hc. vm_compute in Hv. vm_compute in Hc.
    destruct Hv as [<- | []].
    destruct Hc as [<- | [<- | []]]; vm_compute; reflexivity.
Defined.

(** C9 on the sample map, whose two cantons have different names. *)
Lemma C9_witness :
  (forall r1 r2,
      In r1 cv -> In r2 cv -> canton_of r1 = canton_of r2 ->
      Overlay.area (CantonVia.row r1) = Overlay.area (CantonVia.row r2)) /\
  (forall p x,
      In p (por_canton Plano.unary_union cv) -> In x cv ->
      canton_of x = Dissolve.canton (PorCanton.row p) ->
      Dissolve.area (PorCanton.row p) = Overlay.area (CantonVia.row x)).
Proof.
  apply (C9_area_constant_within_canton
           Plano.geometry_length Plano.intersection Plano.unary_union
           (filtrar "AUTOPISTA" vias) cantones).
  intros c1 c2 H1 H2.
  destruct H1 as [<- | [<- | []]]; destruct H2 as [<- | [<- | []]];
    intros Hn; try reflexivity; discriminate Hn.
Defined.
End Corridas.

(** * Where the script departs from its specification *)

Module Contraejemplos.
Import Ejemplo.


(** C7: the sample layers declared in EPSG:5367 instead of EPSG:4326
    load, and the run goes through to its outputs. *)
Lemma C7_counterexample :
  exists lv lc s,
    fs_crtm05 vias_path = Some (GeoJSON lv) /\
    fs_crtm05 cantones_path = Some (GeoJSON lc) /\
    crs lv <> crs_esperado /\
    crs lc <> crs_esperado /\
    correr fs_crtm05 0 = inr s /\
    map (fun r => Dissolve.canton (PorCanton.row r)) (s_por_canton s) = ["A"; "B"].
Proof.
  assert (E : exists s, correr fs_crtm05 0 = inr s /\
                        map (fun r => Dissolve.canton (PorCanton.row r))
                            (s_por_canton s) = ["A"; "B"]).
  { vm_compute. eexists. split; reflexivity. }
  destruct E as [s [E Hs]].
  exists (with_crs "EPSG:5367" red_vial), (with_crs "EPSG:5367" limite_cantonal), s.
  repeat split; try assumption; try reflexivity; discriminate.
Qed.

(** C9: with two features named A of areas 1 and 2, road 1 gives two
    rows of canton A that carry different areas; ['first'] keeps the
    area of the first of them, 1, for the canton of total length 4. *)
Lemma C9_counterexample :
  exists r1 r2,
    In r1 cv_repetidos /\ In r2 cv_repetidos /\
    canton_of r1 = canton_of r2 /\
    Overlay.area (CantonVia.row r1) <> Overlay.area (CantonVia.row r2) /\
    map (fun p => (Dissolve.canton (PorCanton.row p),
                   fraccion (Dissolve.area (PorCanton.row p) * m2_per_km2),
                   fraccion (Dissolve.longitud (PorCanton.row p) * m_per_km)))
        (por_canton Plano.unary_union cv_repetidos) = [("A", 1%Q, 4%Q)].
Proof.
  eexists. eexists.
  split; [left; reflexivity | ].
  split; [right; left; reflexivity | ].
  split; [reflexivity | ].
  split.
  - intros H. apply (f_equal this) in H. vm_compute in H. discriminate H.
  - vm_compute. reflexivity.
Qed.
End Contraejemplos.


(** * Further properties of the script *)

(** ** Order on strings *)

Lemma leb_iff (a b : string) :
  String.leb a b = true <-> a = b \/ OrderedTypeEx.String_as_OT.lt a b.
Proof.
  unfold String.leb.
  destruct (String.compare a b) eqn:E.
  - apply OrderedTypeEx.String_as_OT.cmp_eq in E. tauto.
  - apply OrderedTypeEx.String_as_OT.cmp_lt in E. tauto.
  - split; [discriminate | ]. intros [H | H].
    + apply OrderedTypeEx.String_as_OT.cmp_eq in H.
      unfold OrderedTypeEx.String_as_OT.cmp in H. congruence.
    + apply OrderedTypeEx.String_as_OT.cmp_lt in H.
      unfold OrderedTypeEx.String_as_OT.cmp in H. congruence.
Qed.

Lemma leb_refl (a : string) : String.leb a a = true.
Proof. apply leb_iff. now left. Qed.

Lemma leb_trans (a b c : string) :
  String.leb a b = true -> String.leb b c = true -> String.leb a c = true.
Proof.
  rewrite !leb_iff. intros [-> | Hab] [-> | Hbc]; auto.
  right. now apply OrderedTypeEx.String_as_OT.lt_trans with b.
Qed.

(** ** Sorting again *)

Section SortMore.
Context {A : Type}.
Variable leb : A -> A -> bool.

Lemma insert_last (x : A) (l : list A) :
  Forall (fun y => leb y x = true) l -> insert leb x l = (l ++ [x])%list.
Proof.
  induction 1 as [|y l Hy _ IH]; simpl.
  - reflexivity.
  - rewrite Hy, IH. reflexivity.
Qed.

Lemma sort_from_ascending (l acc : list A) :
  StronglySorted (le leb) l ->
  (forall a b, In a acc -> In b l -> leb a b = true) ->
  sort_from leb acc l = (acc ++ l)%list.
Proof.
  revert acc. induction l as [|x l IH]; intros acc Hs Hacc; simpl.
  - now rewrite app_nil_r.
  - apply StronglySorted_inv in Hs. destruct Hs as [Hs Hx].
    rewrite Forall_forall in Hx.
    rewrite insert_last.
    + rewrite IH; [now rewrite <- app_assoc | assumption | ].
      intros a b Ha Hb. apply in_app_or in Ha. destruct Ha as [Ha | [<- | []]].
      * apply Hacc; [assumption | now right].
      * now apply Hx.
    + apply Forall_forall. intros a Ha. apply Hacc; [assumption | now left].
Qed.

(** Sorting an ascending list leaves it as it is. *)
Lemma sort_ascending (l : list A) : StronglySorted (le leb) l -> sort leb l = l.
Proof.
  intros Hs. unfold sort.
  rewrite sort_from_ascending; [reflexivity | assumption | intros a b []].
Qed.

(** An order that is antisymmetric leaves one ascending arrangement. *)
Lemma ascending_unique (l1 l2 : list A) :
  (forall a b, leb a b = true -> leb b a = true -> a = b) ->
  Permutation l1 l2 ->
  StronglySorted (le leb) l1 -> StronglySorted (le leb) l2 -> l1 = l2.
Proof.
  intros Hanti. revert l2. induction l1 as [|a l1 IH]; intros l2 Hp H1 H2.
  - symmetry. now apply Permutation_nil.
  - destruct l2 as [|b l2].
    + apply Permutation_sym, Permutation_nil in Hp. discriminate Hp.
    + apply StronglySorted_inv in H1. destruct H1 as [H1 Ha].
      apply StronglySorted_inv in H2. destruct H2 as [H2 Hb].
      rewrite Forall_forall in Ha, Hb.
      assert (E : a = b).
      { assert (Hin1 : In b (a :: l1)).
        { apply (Permutation_in b (Permutation_sym Hp)). now left. }
        assert (Hin2 : In a (b :: l2)).
        { apply (Permutation_in a Hp). now left. }
        destruct Hin1 as [E | Hin1]; [assumption | ].
        destruct Hin2 as [E | Hin2]; [now symmetry | ].
        apply Hanti; [now apply Ha | now apply Hb]. }
      subst b. f_equal. apply IH; [ | assumption | assumption].
      now apply Permutation_cons_inv with a.
Qed.

Lemma strongly_sorted_app (l1 l2 : list A) :
  StronglySorted (le leb) (l1 ++ l2) ->
  forall a b, In a l1 -> In b l2 -> leb a b = true.
Proof.
  induction l1 as [|x l1 IH]; intros Hs a b Ha Hb.
  - destruct Ha.
  - simpl in Hs. apply StronglySorted_inv in Hs. destruct Hs as [Hs Hx].
    destruct Ha as [<- | Ha].
    + rewrite Forall_forall in Hx. apply Hx. apply in_or_app. now right.
    + now apply IH.
Qed.
End SortMore.

Section MapFacts.
Context {A B : Type}.
Variable h : A -> B.

Lemma unique_from_map (eqa : A -> A -> bool) (eqb : B -> B -> bool)
    (l seen : list A) :
  (forall x y, eqb (h x) (h y) = eqa x y) ->
  unique_from eqb (map h seen) (map h l) = map h (unique_from eqa seen l).
Proof.
  intros Hc. revert seen. induction l as [|x l IH]; intros seen; simpl.
  - reflexivity.
  - assert (Hm : mem eqb (h x) (map h seen) = mem eqa x seen).
    { unfold mem. induction seen as [|y seen IHs]; simpl; [reflexivity | ].
      now rewrite Hc, IHs. }
    rewrite Hm. destruct (mem eqa x seen).
    + apply IH.
    + simpl. f_equal. apply (IH (x :: seen)).
Qed.

Lemma unique_map (eqa : A -> A -> bool) (eqb : B -> B -> bool) (l : list A) :
  (forall x y, eqb (h x) (h y) = eqa x y) ->
  unique eqb (map h l) = map h (unique eqa l).
Proof.
  intros Hc. apply (unique_from_map eqa eqb l [] Hc).
Qed.

Lemma insert_map (lea : A -> A -> bool) (leb : B -> B -> bool)
    (x : A) (l : list A) :
  (forall x y, leb (h x) (h y) = lea x y) ->
  insert leb (h x) (map h l) = map h (insert lea x l).
Proof.
  intros Hc. induction l as [|y l IH]; simpl.
  - reflexivity.
  - rewrite Hc. destruct (lea y x); simpl; [now rewrite IH | reflexivity].
Qed.

Lemma sort_map (lea : A -> A -> bool) (leb : B -> B -> bool) (l : list A) :
  (forall x y, leb (h x) (h y) = lea x y) ->
  sort leb (map h l) = map h (sort lea l).
Proof.
  intros Hc. unfold sort.
  change (@nil B) with (map h []).
  generalize (@nil A) as acc. induction l as [|x l IH]; intros acc; simpl.
  - reflexivity.
  - rewrite (insert_map lea leb x acc Hc). apply IH.
Qed.
End MapFacts.

(** ** The aggregates of a run *)

Section Extras.
Variable geometry_area_perimeter : Geometry -> num * num.
Variable geometry_length : Geometry -> num.
Variable intersection : Geometry -> Geometry -> option Geometry.
Variable unary_union : list Geometry -> Geometry.

Lemma flat_map_filter {A B : Type} (g : A -> list B) (p : A -> bool)
    (q : B -> bool) (l : list A) :
  (forall a b, In b (g a) -> q b = p a) ->
  flat_map g (filter p l) = filter q (flat_map g l).
Proof.
  intros H. induction l as [|a l IH]; simpl.
  - reflexivity.
  - rewrite filter_app, <- IH. destruct (p a) eqn:E; simpl.
    + f_equal. symmetry. apply filter_all.
      intros b Hb. rewrite (H a b Hb). exact E.
    + rewrite (filter_none q (g a)); [reflexivity | ].
      intros b Hb. rewrite (H a b Hb). exact E.
Qed.

Lemma overlay_filtrar (filtro_categoria : string)
    (vias : list Via.t) (cantones : list Canton.t) :
  overlay intersection (filtrar filtro_categoria vias) cantones =
  filter (fun r => (Overlay.categoria r =? filtro_categoria)%string)
         (overlay intersection vias cantones).
Proof.
  unfold overlay, filtrar. apply flat_map_filter.
  intros v r Hr. apply in_flat_map in Hr. destruct Hr as [c [_ Hr]].
  destruct (intersection (Via.geometry v) (Canton.geometry c)); [ | destruct Hr].
  destruct Hr as [<- | []]. reflexivity.
Qed.

(** X1 (lines 94, 100-101).  Filtering the roads and then overlaying
    them gives the rows, in the same order, that overlaying all the roads
    and then keeping the rows of the category would give. *)
Theorem X1_filter_commutes_with_overlay (filtro_categoria : string)
    (vias : list Via.t) (cantones : list Canton.t) :
  cantones_vias geometry_length intersection
                (filtrar filtro_categoria vias) cantones =
  filter (fun r => (Overlay.categoria (CantonVia.row r) =? filtro_categoria)%string)
         (cantones_vias geometry_length intersection vias cantones).
Proof.
  unfold cantones_vias, add_longitud.
  rewrite overlay_filtrar, filter_map_swap. reflexivity.
Qed.

Lemma cantones_vias_categoria (filtro_categoria : string)
    (vias : list Via.t) (cantones : list Canton.t) (r : CantonVia.t) :
  In r (cantones_vias geometry_length intersection
          (filtrar filtro_categoria vias) cantones) ->
  Overlay.categoria (CantonVia.row r) = filtro_categoria.
Proof.
  intros Hr. apply cantones_vias_In in Hr.
  destruct Hr as [v [c [g [Hv [_ [_ ->]]]]]]. simpl.
  apply filtrar_In in Hv. tauto.
Qed.

(** The row of [por_categoria] that goes with a row of the dissolve when
    the category is [f]. *)
Lemma flat_map_pointwise {A B C D : Type} (F : A -> list C) (G : B -> list D)
    (t : D -> C) (a : list A) (b : list B) :
  Forall2 (fun x y => F x = map t (G y)) a b ->
  flat_map F a = map t (flat_map G b).
Proof.
  induction 1 as [|x y a b Hxy _ IH]; simpl.
  - reflexivity.
  - rewrite map_app, Hxy, IH. reflexivity.
Qed.

Lemma pair_eqb_same (f x y : string) : pair_eqb (x, f) (y, f) = (x =? y)%string.
Proof.
  unfold pair_eqb. simpl. rewrite String.eqb_refl. apply andb_true_r.
Qed.

Lemma pair_leb_same (f x y : string) : pair_leb (x, f) (y, f) = String.leb x y.
Proof.
  unfold pair_leb. simpl. destruct (String.eqb_spec x y) as [-> | _].
  - now rewrite !leb_refl.
  - reflexivity.
Qed.

Lemma por_categoria_of_dissolve (f : string) (cv : list CantonVia.t) :
  (forall r, In r cv -> Overlay.categoria (CantonVia.row r) = f) ->
  por_categoria cv =
  map (fun d => PorCategoria.mk (Dissolve.canton d) f (Dissolve.area d)
                                (Dissolve.longitud d))
      (dissolve unary_union cv).
Proof.
  intros Hcat. unfold por_categoria, dissolve, groupby.
  assert (Hk : map clave cv = map (fun c => (c, f)) (map canton_of cv)).
  { rewrite map_map. apply map_ext_in. intros r Hr.
    unfold clave, canton_of. now rewrite (Hcat r Hr). }
  rewrite Hk.
  rewrite (unique_map (fun c => (c, f)) String.eqb pair_eqb _ (pair_eqb_same f)).
  rewrite (sort_map (fun c => (c, f)) String.leb pair_leb _ (pair_leb_same f)).
  rewrite map_map. apply flat_map_pointwise.
  induction (sort String.leb (unique String.eqb (map canton_of cv))) as [|c l IH];
    simpl; constructor; [ | exact IH].
  cbn [fst snd].
  assert (Hg : group_of pair_eqb clave (c, f) cv = group_of String.eqb canton_of c cv).
  { unfold group_of. apply filter_ext_in. intros r Hr.
    unfold clave, canton_of, pair_eqb. cbn [fst snd].
    rewrite (Hcat r Hr), String.eqb_refl. apply andb_true_r. }
  rewrite Hg. destruct (group_of String.eqb canton_of c cv) as [|x rest]; reflexivity.
Qed.

(** X2 (lines 94, 100-115).  After the filter every row of
    [cantones_vias] has the picked category, and [por_categoria] is
    [por_canton] row for row: the same cantons in the same order, each
    with the picked category and the same area and length. *)
Theorem X2_por_categoria_mirrors_por_canton (filtro_categoria : string)
    (vias : list Via.t) (cantones : list Canton.t) :
  (forall r,
      In r (cantones_vias geometry_length intersection
              (filtrar filtro_categoria vias) cantones) ->
      Overlay.categoria (CantonVia.row r) = filtro_categoria) /\
  por_categoria (cantones_vias geometry_length intersection
                   (filtrar filtro_categoria vias) cantones) =
  map (fun p => PorCategoria.mk (Dissolve.canton (PorCanton.row p))
                                filtro_categoria
                                (Dissolve.area (PorCanton.row p))
                                (Dissolve.longitud (PorCanton.row p)))
      (por_canton unary_union
         (cantones_vias geometry_length intersection
            (filtrar filtro_categoria vias) cantones)).
Proof.
  split.
  - apply cantones_vias_categoria.
  - rewrite (por_categoria_of_dissolve filtro_categoria)
      by apply cantones_vias_categoria.
    unfold por_canton, add_densidad. rewrite map_map. reflexivity.
Qed.

(** The dissolve has one row per canton of [cantones_vias], cantons
    ascending: the id and the area of the first row of the canton, the
    sum of the lengths of its rows. *)
Lemma dissolve_rows (cv : list CantonVia.t) :
  exists (ids : string -> string) (areas : string -> num),
    (forall c x rest,
        group_of String.eqb canton_of c cv = x :: rest ->
        ids c = Overlay.id (CantonVia.row x) /\
        areas c = Overlay.area (CantonVia.row x)) /\
    dissolve unary_union cv =
    map (fun c => Dissolve.mk c
                    (unary_union (map (fun r => Overlay.geometry (CantonVia.row r))
                                      (group_of String.eqb canton_of c cv)))
                    (ids c) (areas c)
                    (group_sum String.eqb canton_of CantonVia.longitud c cv))
        (sort String.leb (unique String.eqb (map canton_of cv))).
Proof.
  exists (fun c => match group_of String.eqb canton_of c cv with
                   | x :: _ => Overlay.id (CantonVia.row x)
                   | [] => ""
                   end),
         (fun c => match group_of String.eqb canton_of c cv with
                   | x :: _ => Overlay.area (CantonVia.row x)
                   | [] => 0%Qc
                   end).
  split.
  - intros c x rest E. rewrite E. split; reflexivity.
  - unfold dissolve, groupby. rewrite flat_map_concat_map, map_map.
    rewrite <- flat_map_concat_map. apply flat_map_singletons.
    intros c Hc. cbn [fst snd].
    apply (proj1 (sort_In String.leb _ _)) in Hc.
    apply (proj1 (unique_In String.eqb String.eqb_eq _ _)) in Hc.
    destruct (group_of_occurs String.eqb canton_of String.eqb_eq cv c Hc)
      as [x [rest E]].
    unfold group_sum. rewrite E. reflexivity.
Qed.

Lemma dissolve_cantones (cv : list CantonVia.t) :
  map Dissolve.canton (dissolve unary_union cv) =
  sort String.leb (unique String.eqb (map canton_of cv)).
Proof.
  destruct (dissolve_rows cv) as [ids [areas [_ ->]]].
  rewrite map_map. cbn [Dissolve.canton]. apply map_id.
Qed.

Lemma por_canton_cantones (cv : list CantonVia.t) :
  map (fun p => Dissolve.canton (PorCanton.row p)) (por_canton unary_union cv) =
  sort String.leb (unique String.eqb (map canton_of cv)).
Proof.
  unfold por_canton, add_densidad. rewrite map_map. cbn [PorCanton.row].
  apply dissolve_cantones.
Qed.

Lemma ascending_strings (l : list string) :
  StronglySorted (le String.leb) (sort String.leb l).
Proof.
  apply Sorted_StronglySorted.
  - intros a b c. apply leb_trans.
  - apply sort_sorted, String.leb_total.
Qed.

(** X3 (lines 108-115).  [por_canton] has exactly one row for each
    canton name that occurs in [cantones_vias], and its rows are in
    ascending order of canton name. *)
Theorem X3_por_canton_one_row_per_canton_ascending (cv : list CantonVia.t) :
  NoDup (map (fun p => Dissolve.canton (PorCanton.row p))
             (por_canton unary_union cv)) /\
  StronglySorted (le String.leb)
    (map (fun p => Dissolve.canton (PorCanton.row p)) (por_canton unary_union cv)) /\
  (forall c,
      In c (map (fun p => Dissolve.canton (PorCanton.row p))
                (por_canton unary_union cv)) <->
      In c (map canton_of cv)).
Proof.
  rewrite por_canton_cantones. split; [ | split].
  - apply sort_NoDup, unique_NoDup, String.eqb_eq.
  - apply ascending_strings.
  - intros c. split; intros H.
    + apply (proj1 (sort_In String.leb _ _)) in H.
      now apply (proj1 (unique_In String.eqb String.eqb_eq _ _)) in H.
    + apply (proj2 (sort_In String.leb _ _)).
      now apply (proj2 (unique_In String.eqb String.eqb_eq _ _)).
Qed.

Lemma groups_skip {R K : Type} (eqb : K -> K -> bool) (key : R -> K)
    (ks : list K) (r : R) (rows : list R) :
  (forall x y, eqb x y = true <-> x = y) ->
  ~ In (key r) ks ->
  flat_map (fun k => group_of eqb key k (r :: rows)) ks =
  flat_map (fun k => group_of eqb key k rows) ks.
Proof.
  intros Heq. induction ks as [|k ks IH]; intros Hn; [reflexivity | ].
  cbn [flat_map]. rewrite IH by (intros H; apply Hn; now right).
  f_equal. unfold group_of. cbn [filter].
  destruct (eqb (key r) k) eqn:E; [ | reflexivity].
  apply Heq in E. exfalso. apply Hn. left. now symmetry.
Qed.

(** The groups of the keys [ks], one after the other, are the rows in
    another order, when no key is repeated and every row has its key
    among them. *)
Lemma groups_partition {R K : Type} (eqb : K -> K -> bool) (key : R -> K)
    (ks : list K) (rows : list R) :
  (forall x y, eqb x y = true <-> x = y) ->
  NoDup ks -> (forall r, In r rows -> In (key r) ks) ->
  Permutation (flat_map (fun k => group_of eqb key k rows) ks) rows.
Proof.
  intros Heq Hnd. induction rows as [|r rows IH]; intros Hcov.
  - clear Hnd Hcov. induction ks as [|k ks IHk]; [constructor | ].
    cbn [flat_map]. unfold group_of at 1. cbn [filter app]. exact IHk.
  - assert (Hr : In (key r) ks) by (apply Hcov; now left).
    assert (IH' := IH (fun x Hx => Hcov x (or_intror Hx))).
    destruct (in_split _ _ Hr) as [ks1 [ks2 E]]. subst ks.
    apply NoDup_remove_2 in Hnd.
    assert (H1 : ~ In (key r) ks1) by (intros H; apply Hnd, in_or_app; now left).
    assert (H2 : ~ In (key r) ks2) by (intros H; apply Hnd, in_or_app; now right).
    rewrite flat_map_app in *. cbn [flat_map] in *.
    rewrite (groups_skip eqb key ks1 r rows Heq H1).
    rewrite (groups_skip eqb key ks2 r rows Heq H2).
    unfold group_of at 2. cbn [filter].
    rewrite (proj2 (Heq (key r) (key r)) eq_refl).
    fold (group_of eqb key (key r) rows).
    cbn [app]. symmetry. apply Permutation_cons_app. symmetry. exact IH'.
Qed.

(** X4 (lines 103-115).  Aggregating loses and repeats no row: the
    groups behind the rows of [por_canton], one after the other, are the
    rows of [cantones_vias] in another order, and so are the groups
    behind the rows of [por_categoria]; the length of each aggregate row
    is the ['sum'] of the lengths of its own group, in row order. *)
Theorem X4_aggregates_partition_the_rows (cv : list CantonVia.t) :
  Permutation
    (flat_map (fun p => group_of String.eqb canton_of
                          (Dissolve.canton (PorCanton.row p)) cv)
              (por_canton unary_union cv))
    cv /\
  (forall p,
      In p (por_canton unary_union cv) ->
      Dissolve.longitud (PorCanton.row p) =
      sum (map CantonVia.longitud
               (group_of String.eqb canton_of
                  (Dissolve.canton (PorCanton.row p)) cv))) /\
  Permutation
    (flat_map (fun q => group_of pair_eqb clave
                          (PorCategoria.canton q, PorCategoria.categoria q) cv)
              (por_categoria cv))
    cv /\
  (forall q,
      In q (por_categoria cv) ->
      PorCategoria.longitud q =
      sum (map CantonVia.longitud
               (group_of pair_eqb clave
                  (PorCategoria.canton q, PorCategoria.categoria q) cv))).
Proof.
  destruct (dissolve_rows cv) as [ids [areas [_ Ed]]].
  destruct (por_categoria_rows cv) as [areas' [_ Ec]].
  unfold por_canton, add_densidad. rewrite Ed, Ec.
  split; [ | split; [ | split]].
  - rewrite !flat_map_concat_map, !map_map. cbn [PorCanton.row Dissolve.canton].
    rewrite <- flat_map_concat_map.
    apply (groups_partition String.eqb canton_of).
    + apply String.eqb_eq.
    + apply sort_NoDup, unique_NoDup, String.eqb_eq.
    + intros r Hr. apply (proj2 (sort_In String.leb _ _)).
      apply (proj2 (unique_In String.eqb String.eqb_eq _ _)). now apply in_map.
  - intros p Hp. rewrite map_map in Hp. apply in_map_iff in Hp.
    destruct Hp as [c [<- _]]. reflexivity.
  - rewrite !flat_map_concat_map, !map_map.
    cbn [PorCategoria.canton PorCategoria.categoria].
    rewrite <- flat_map_concat_map.
    assert (E : forall k : string * string, (fst k, snd k) = k) by (now intros [a b]).
    rewrite (flat_map_ext _ _ (fun k => f_equal (fun z => group_of pair_eqb clave z cv) (E k))).
    apply (groups_partition pair_eqb clave).
    + apply pair_eqb_eq.
    + apply sort_NoDup, unique_NoDup, pair_eqb_eq.
    + intros r Hr. apply (proj2 (sort_In pair_leb _ _)).
      apply (proj2 (unique_In pair_eqb pair_eqb_eq _ _)). now apply in_map.
  - intros q Hq. apply in_map_iff in Hq.
    destruct Hq as [[a b] [<- _]]. reflexivity.
Qed.

(** *** The table *)

Lemma unique_from_const (f : string) {A : Type} (l : list A) (seen : list string) :
  In f seen -> unique_from String.eqb seen (map (fun _ => f) l) = [].
Proof.
  intros Hin. induction l as [|x l IH]; simpl.
  - reflexivity.
  - rewrite (proj2 (mem_In String.eqb String.eqb_eq f seen) Hin). exact IH.
Qed.

Lemma unique_const (f : string) {A : Type} (l : list A) :
  unique String.eqb (map (fun _ => f) l) =
  match l with [] => [] | _ :: _ => [f] end.
Proof.
  destruct l as [|x l]; [reflexivity | ].
  unfold unique. simpl. f_equal. apply unique_from_const. now left.
Qed.

Lemma find_by_key {X Y : Type} (key : X -> string) (g : X -> Y)
    (P : Y -> bool) (l : list X) (x : X) :
  NoDup (map key l) -> In x l ->
  (forall y, In y l -> P (g y) = (key y =? key x)%string) ->
  find P (map g l) = Some (g x).
Proof.
  induction l as [|y l IH]; intros Hnd Hin HP.
  - destruct Hin.
  - simpl. inversion Hnd as [|? ? Hy Hnd']; subst.
    rewrite (HP y) by now left.
    destruct (String.eqb_spec (key y) (key x)) as [E | E].
    + destruct Hin as [-> | Hin]; [reflexivity | ].
      exfalso. apply Hy. rewrite E. now apply in_map.
    + destruct Hin as [-> | Hin]; [congruence | ].
      apply IH; [assumption | assumption | ].
      intros z Hz. apply HP. now right.
Qed.

Lemma tabla_of_rows (f : string) (ds : list Dissolve.t) :
  NoDup (map Dissolve.canton ds) ->
  StronglySorted (le String.leb) (map Dissolve.canton ds) ->
  tabla (map (fun d => PorCategoria.mk (Dissolve.canton d) f (Dissolve.area d)
                                       (Dissolve.longitud d)) ds)
        (add_densidad ds) =
  inr ((match ds with [] => [] | _ :: _ => [f] end ++ ["densidad"])%list,
       map (fun d => Tabla.mk (Dissolve.canton d) [Num (Dissolve.longitud d)]
                              (Dissolve.longitud d / Dissolve.area d)%Qc) ds).
Proof.
  intros Hnd Hs. unfold tabla, pivot, has_duplicates.
  rewrite !map_map. cbn [PorCategoria.canton PorCategoria.categoria].
  assert (Hk : map (fun d => (Dissolve.canton d, f)) ds =
               map (fun c => (c, f)) (map Dissolve.canton ds)).
  { rewrite map_map. reflexivity. }
  rewrite Hk. clear Hk.
  change (map (fun x => Dissolve.canton x) ds) with (map Dissolve.canton ds).
  rewrite (unique_map (fun c => (c, f)) String.eqb pair_eqb _ (pair_eqb_same f)).
  rewrite (unique_fixed String.eqb String.eqb_eq _ Hnd).
  rewrite Nat.eqb_refl. cbn [negb bind ret fst snd].
  rewrite (unique_const f ds), (sort_ascending String.leb _ Hs).
  assert (Hcols : sort String.leb (match ds with [] => [] | _ :: _ => [f] end) =
                  match ds with [] => [] | _ :: _ => [f] end).
  { destruct ds; reflexivity. }
  rewrite Hcols. unfold ret. f_equal. f_equal.
  rewrite !map_map. cbn [fst snd].
  unfold concat_densidad. rewrite flat_map_concat_map, map_map.
  rewrite <- flat_map_concat_map. apply flat_map_singletons.
  intros d Hd. cbn [fst snd].
  unfold add_densidad.
  rewrite (find_by_key Dissolve.canton
             (fun r => PorCanton.mk r (Dissolve.longitud r / Dissolve.area r)%Qc)
             _ ds d Hnd Hd) by reflexivity.
  f_equal. f_equal.
  destruct ds as [|d0 ds']; [destruct Hd | ].
  cbn [map].
  rewrite (find_by_key Dissolve.canton
             (fun d => PorCategoria.mk (Dissolve.canton d) f (Dissolve.area d)
                                       (Dissolve.longitud d))
             _ (d0 :: ds') d Hnd Hd).
  - reflexivity.
  - intros y _. cbn [PorCategoria.canton PorCategoria.categoria].
    apply pair_eqb_same.
Qed.

(** X5 (lines 126-127).  The table of a run has one row for each row of
    [por_canton], in the same order: the canton, one value cell holding the
    canton's length, and the canton's density.  Its columns are the
    picked category (when there is any row) and [densidad]; no cell holds
    the placeholder ['--']. *)
Theorem X5_table_is_por_canton_row_for_row (filtro_categoria : string)
    (vias : list Via.t) (cantones : list Canton.t) :
  tabla (por_categoria
           (cantones_vias geometry_length intersection
              (filtrar filtro_categoria vias) cantones))
        (por_canton unary_union
           (cantones_vias geometry_length intersection
              (filtrar filtro_categoria vias) cantones)) =
  inr ((match por_canton unary_union
                (cantones_vias geometry_length intersection
                   (filtrar filtro_categoria vias) cantones)
        with [] => [] | _ :: _ => [filtro_categoria] end ++ ["densidad"])%list,
       map (fun p => Tabla.mk (Dissolve.canton (PorCanton.row p))
                              [Num (Dissolve.longitud (PorCanton.row p))]
                              (PorCanton.densidad p))
           (por_canton unary_union
              (cantones_vias geometry_length intersection
                 (filtrar filtro_categoria vias) cantones))).
Proof.
  rewrite (por_categoria_of_dissolve filtro_categoria)
    by apply cantones_vias_categoria.
  unfold por_canton.
  rewrite tabla_of_rows.
  - unfold add_densidad. rewrite map_map. cbn [PorCanton.row PorCanton.densidad].
    destruct (dissolve unary_union
                (cantones_vias geometry_length intersection
                   (filtrar filtro_categoria vias) cantones)); reflexivity.
  - rewrite dissolve_cantones. apply sort_NoDup, unique_NoDup, String.eqb_eq.
  - rewrite dissolve_cantones. apply ascending_strings.
Qed.

(** *** Column selection *)

Lemma index_of_None (c : string) (cols : list string) :
  index_of c cols = None <-> ~ In c cols.
Proof.
  induction cols as [|c' cols IH]; simpl.
  - tauto.
  - destruct (String.eqb_spec c c') as [-> | Hne].
    + split; [discriminate | ]. intros H. exfalso. apply H. now left.
    + destruct (index_of c cols); simpl.
      * split; [discriminate | ]. intros H. exfalso.
        assert (Hn : ~ In c cols) by (intros Hin; apply H; now right).
        apply IH in Hn. discriminate Hn.
      * split; [ | reflexivity]. intros _ [E | Hin]; [congruence | ].
        now apply (proj1 IH).
Qed.

Lemma index_of_Some (c : string) (cols : list string) (i : nat) :
  index_of c cols = Some i -> nth_error cols i = Some c.
Proof.
  revert i. induction cols as [|c' cols IH]; intros i; simpl.
  - discriminate.
  - destruct (String.eqb_spec c c') as [-> | Hne].
    + intros H. inversion H. reflexivity.
    + destruct (index_of c cols) as [j|]; simpl; [ | discriminate].
      intros H. inversion H. simpl. now apply IH.
Qed.

Lemma missing_column_Some (want cols : list string) (c : string) :
  missing_column want cols = Some c -> In c want /\ ~ In c cols.
Proof.
  induction want as [|w want IH]; simpl.
  - discriminate.
  - destruct (index_of w cols) eqn:E.
    + intros H. destruct (IH H). tauto.
    + intros H. inversion H; subst. split; [now left | now apply index_of_None].
Qed.

Lemma missing_column_None (want cols : list string) :
  missing_column want cols = None <-> (forall c, In c want -> In c cols).
Proof.
  induction want as [|w want IH]; simpl.
  - split; [intros _ c [] | reflexivity].
  - destruct (index_of w cols) eqn:E.
    + rewrite IH. split.
      * intros H c [<- | Hc]; [ | now apply H].
        destruct (in_dec string_dec w cols) as [Hin | Hn]; [assumption | ].
        apply index_of_None in Hn. congruence.
      * intros H c Hc. apply H. now right.
    + split; [discriminate | ]. intros H. exfalso.
      apply index_of_None in E. apply E, H. now left.
Qed.

Lemma cell_of_selection (cols want : list string) (cells : list string) (c : string) :
  In c want ->
  cell want c (map (fun c' => cell cols c' cells) want) = cell cols c cells.
Proof.
  intros Hin. unfold cell at 1.
  destruct (index_of c want) as [i|] eqn:E.
  - apply index_of_Some in E.
    apply nth_error_nth.
    rewrite nth_error_map, E. reflexivity.
  - apply index_of_None in E. contradiction.
Qed.

Lemma vias_rows_agree (cs cs' : list string)
    (rs rs' : list (list string * Geometry)) :
  map snd rs' = map snd rs ->
  map (fun r => cell cs' "categoria" (fst r)) rs' =
    map (fun r => cell cs "categoria" (fst r)) rs ->
  map (fun r => cell cs' "codigo" (fst r)) rs' =
    map (fun r => cell cs "codigo" (fst r)) rs ->
  map (fun r => Via.mk (cell cs' "categoria" (fst r)) (cell cs' "codigo" (fst r))
                       (snd r)) rs' =
  map (fun r => Via.mk (cell cs "categoria" (fst r)) (cell cs "codigo" (fst r))
                       (snd r)) rs.
Proof.
  revert rs. induction rs' as [|r' rs' IH]; intros [|r rs] Hg H1 H2;
    try discriminate.
  - reflexivity.
  - simpl in *. inversion Hg. inversion H1. inversion H2.
    f_equal; try (now apply IH); congruence.
Qed.

Lemma cantones_rows_agree (cs cs' : list string)
    (rs rs' : list (list string * Geometry)) :
  map snd rs' = map snd rs ->
  map (fun r => cell cs' "id" (fst r)) rs' =
    map (fun r => cell cs "id" (fst r)) rs ->
  map (fun r => cell cs' "canton" (fst r)) rs' =
    map (fun r => cell cs "canton" (fst r)) rs ->
  map (fun r => cell cs' "provincia" (fst r)) rs' =
    map (fun r => cell cs "provincia" (fst r)) rs ->
  map (fun r => Canton.mk (cell cs' "id" (fst r)) (cell cs' "canton" (fst r))
                          (cell cs' "provincia" (fst r)) (snd r)
                          (area_f geometry_area_perimeter (snd r) / m2_per_km2)%Qc)
      rs' =
  map (fun r => Canton.mk (cell cs "id" (fst r)) (cell cs "canton" (fst r))
                          (cell cs "provincia" (fst r)) (snd r)
                          (area_f geometry_area_perimeter (snd r) / m2_per_km2)%Qc)
      rs.
Proof.
  revert rs. induction rs' as [|r' rs' IH]; intros [|r rs] Hg H1 H2 H3;
    try discriminate.
  - reflexivity.
  - simpl in *. inversion Hg. inversion H1. inversion H2. inversion H3.
    f_equal; try (now apply IH); congruence.
Qed.

(** X6 (lines 69, 76).  A column selection that succeeds leaves exactly
    the wanted columns, the CRS, the geometries and, for every wanted
    column, the cell of every record; it succeeds when the frame has all
    the wanted columns and raises [KeyError] on a wanted column that the
    frame lacks otherwise.  The rows the script reads from the selected
    frames are those of the frames as loaded. *)
Theorem X6_column_selection_keeps_the_wanted_cells (want : list string) (l : layer) :
  (forall l',
      loc want l = inr l' ->
      columns l' = want /\ crs l' = crs l /\
      map snd (records l') = map snd (records l) /\
      forall c, In c want ->
                map (fun r => cell (columns l') c (fst r)) (records l') =
                map (fun r => cell (columns l) c (fst r)) (records l)) /\
  (forall e,
      loc want l = inl e ->
      exists c, e = KeyError c /\ In c want /\ ~ In c (columns l)) /\
  ((forall c, In c want -> In c (columns l)) -> exists l', loc want l = inr l') /\
  (forall l', loc vias_columns l = inr l' -> vias_rows l' = vias_rows l) /\
  (forall l', loc cantones_columns l = inr l' ->
              cantones_rows geometry_area_perimeter l' =
              cantones_rows geometry_area_perimeter l).
Proof.
  assert (Hcells : forall want' l',
             loc want' l = inr l' ->
             columns l' = want' /\ crs l' = crs l /\
             map snd (records l') = map snd (records l) /\
             forall c, In c want' ->
                       map (fun r => cell (columns l') c (fst r)) (records l') =
                       map (fun r => cell (columns l) c (fst r)) (records l)).
  { intros want' l' H. unfold loc in H.
    destruct (missing_column want' (columns l)); [discriminate | ].
    inversion H; subst l'; clear H. cbn [columns crs records].
    split; [reflexivity | ]. split; [reflexivity | ]. split.
    - rewrite map_map. reflexivity.
    - intros c Hc. rewrite map_map. apply map_ext. intros r. cbn [fst].
      now apply cell_of_selection. }
  split; [apply Hcells | ]. split; [ | split; [ | split]].
  - intros e H. unfold loc in H.
    destruct (missing_column want (columns l)) as [c|] eqn:E; [ | discriminate].
    inversion H; subst e. exists c. split; [reflexivity | ].
    now apply missing_column_Some.
  - intros H. unfold loc.
    rewrite (proj2 (missing_column_None want (columns l)) H). eauto.
  - intros l' H. destruct (Hcells _ _ H) as [_ [_ [Hg Hc]]].
    apply vias_rows_agree; [assumption | | ]; apply Hc; simpl; tauto.
  - intros l' H. destruct (Hcells _ _ H) as [_ [_ [Hg Hc]]].
    apply cantones_rows_agree; [assumption | | | ]; apply Hc; simpl; tauto.
Qed.

(** *** What can stop a run *)





(** *** The options of the selector *)

(** X8 (lines 83-85).  The options, and their order, depend only on which
    categories occur among the road rows, not on the order of the rows or
    on how many rows a category has. *)
Theorem X8_options_depend_on_the_set_of_categories (vias1 vias2 : list Via.t) :
  (forall c, In c (map Via.categoria vias1) <-> In c (map Via.categoria vias2)) ->
  lista_categorias vias1 = lista_categorias vias2.
Proof.
  intros Hset. unfold lista_categorias.
  apply (ascending_unique String.leb).
  - apply String.leb_antisym.
  - apply perm_trans with (unique String.eqb (map Via.categoria vias1));
      [apply sort_perm | ].
    apply perm_trans with (unique String.eqb (map Via.categoria vias2));
      [ | apply Permutation_sym, sort_perm].
    apply NoDup_Permutation; try (apply unique_NoDup, String.eqb_eq).
    intros c. rewrite !(unique_In String.eqb String.eqb_eq). apply Hset.
  - apply ascending_strings.
  - apply ascending_strings.
Qed.

(** *** The top 15 and the pie *)

Lemma strongly_sorted_map {A B : Type} (R : A -> A -> Prop) (S : B -> B -> Prop)
    (g : A -> B) (l : list A) :
  (forall a b, R a b -> S (g a) (g b)) ->
  StronglySorted R l -> StronglySorted S (map g l).
Proof.
  intros H. induction 1 as [|a l Hl IH Ha]; simpl; constructor.
  - exact IH.
  - rewrite Forall_forall in *. intros y Hy. apply in_map_iff in Hy.
    destruct Hy as [x [<- Hx]]. apply H. now apply Ha.
Qed.

Lemma strongly_sorted_firstn {A : Type} (R : A -> A -> Prop) (n : nat) (l : list A) :
  StronglySorted R l -> StronglySorted R (firstn n l).
Proof.
  intros Hs. revert n. induction Hs as [|a l Hl IH Ha]; intros [|n]; simpl;
    try constructor.
  - apply IH.
  - rewrite Forall_forall in *. intros x Hx. apply Ha. now apply In_firstn in Hx.
Qed.

Lemma sort_values_desc_strongly_sorted (pc : list PorCanton.t) :
  StronglySorted (le longer) (sort_values_desc pc).
Proof.
  apply Sorted_StronglySorted.
  - intros a b c Hab Hbc. apply longer_le. apply longer_le in Hab, Hbc.
    now apply Qcle_trans with (Dissolve.longitud (PorCanton.row b)).
  - apply sort_sorted, longer_total.
Qed.

Lemma NoDup_firstn {A : Type} (n : nat) (l : list A) : NoDup l -> NoDup (firstn n l).
Proof.
  intros H. rewrite <- (firstn_skipn n l) in H. now apply NoDup_app_remove_r in H.
Qed.

(** X9 (line 144).  [top_15] holds 15 entries, or all of them when
    there are fewer cantons; each is the name and length of a row of
    [por_canton]; the entries come longest first; no canton left out is
    longer than a canton kept; and canton names that are not repeated in
    [por_canton] are not repeated in [top_15]. *)
Theorem X9_top_15_are_the_longest (pc : list PorCanton.t) :
  List.length (top_15 pc) = Nat.min 15 (List.length pc) /\
  (forall e, In e (top_15 pc) ->
             exists r, In r pc /\
                       e = (Dissolve.canton (PorCanton.row r),
                            Dissolve.longitud (PorCanton.row r))) /\
  StronglySorted (fun a b : string * num => (snd b <= snd a)%Qc) (top_15 pc) /\
  (forall r e,
      In r pc ->
      ~ In (Dissolve.canton (PorCanton.row r)) (map fst (top_15 pc)) ->
      In e (top_15 pc) ->
      (Dissolve.longitud (PorCanton.row r) <= snd e)%Qc) /\
  (NoDup (map (fun r => Dissolve.canton (PorCanton.row r)) pc) ->
   NoDup (map fst (top_15 pc))).
Proof.
  unfold top_15, nlargest. split; [ | split; [ | split; [ | split]]].
  - rewrite length_map, length_firstn. unfold sort_values_desc.
    now rewrite sort_length.
  - intros e He. apply in_map_iff in He. destruct He as [r [<- Hr]].
    exists r. split; [ | reflexivity].
    apply In_firstn in Hr.
    apply (Permutation_in r (sort_perm longer pc)). exact Hr.
  - apply (strongly_sorted_map (le longer)).
    + intros a b Hab. cbn [snd]. now apply longer_le.
    + apply strongly_sorted_firstn, sort_values_desc_strongly_sorted.
  - intros r e Hr Hout He.
    apply in_map_iff in He. destruct He as [t [<- Ht]]. cbn [snd].
    assert (Hs : In r (sort_values_desc pc)).
    { apply (Permutation_in r (Permutation_sym (sort_perm longer pc))). exact Hr. }
    rewrite <- (firstn_skipn 15 (sort_values_desc pc)) in Hs.
    apply in_app_or in Hs. destruct Hs as [Hs | Hs].
    + exfalso. apply Hout. rewrite map_map. cbn [fst].
      apply in_map_iff. exists r. split; [reflexivity | assumption].
    + apply longer_le.
      apply (strongly_sorted_app longer (firstn 15 (sort_values_desc pc))
                                 (skipn 15 (sort_values_desc pc))).
      * rewrite firstn_skipn. apply sort_values_desc_strongly_sorted.
      * exact Ht.
      * exact Hs.
  - intros Hnd. rewrite map_map. cbn [fst]. rewrite <- firstn_map.
    apply NoDup_firstn.
    apply (Permutation_NoDup
             (Permutation_map _ (Permutation_sym (sort_perm longer pc)))).
    exact Hnd.
Qed.

Lemma renombrar_otros_split (s : list PorCanton.t) :
  renombrar_otros s =
  (firstn 15 s ++ map (set_canton otros) (skipn 15 s))%list.
Proof.
  unfold renombrar_otros. apply (relabel_split (set_canton otros) 15 s 0).
Qed.

(** X10 (lines 161-162).  Let [s] be the rows of [por_canton] in a
    descending order of length, whatever the order of rows of equal
    length.  The pie data made from [s] has a row for every row of
    [por_canton] and the same column of lengths as the pie data made from
    the descending order that keeps ties in row order; its first 15 rows
    are the first 15 rows of [s], with the lengths of [top_15], and every
    later row is named 'Otros cantones'.  With 15 cantons or fewer no row
    is renamed. *)
Theorem X10_pie_keeps_every_length (pc s : list PorCanton.t) :
  Permutation s pc -> Sorted (le longer) s ->
  List.length (renombrar_otros s) = List.length pc /\
  Permutation (map (fun r => Dissolve.longitud (PorCanton.row r)) (renombrar_otros s))
              (map (fun r => Dissolve.longitud (PorCanton.row r)) pc) /\
  map (fun r => Dissolve.longitud (PorCanton.row r)) (renombrar_otros s) =
    map (fun r => Dissolve.longitud (PorCanton.row r)) (por_canton_pie pc) /\
  firstn 15 (renombrar_otros s) = firstn 15 s /\
  map (fun r => Dissolve.longitud (PorCanton.row r)) (firstn 15 s) =
    map snd (top_15 pc) /\
  (forall r, In r (skipn 15 (renombrar_otros s)) ->
             Dissolve.canton (PorCanton.row r) = otros) /\
  (List.length pc <= 15 -> renombrar_otros s = s) /\
  por_canton_pie pc = renombrar_otros (sort_values_desc pc).
Proof.
  intros Hp Hs.
  assert (Hv := sort_values_desc_values pc s Hp Hs).
  assert (Hl : map (fun r => Dissolve.longitud (PorCanton.row r)) (renombrar_otros s) =
               map (fun r => Dissolve.longitud (PorCanton.row r)) s).
  { rewrite renombrar_otros_split, map_app, longitud_set_canton, <- map_app.
    now rewrite firstn_skipn. }
  repeat split.
  - rewrite <- (length_map (fun r => Dissolve.longitud (PorCanton.row r))), Hl.
    rewrite length_map. now apply Permutation_length.
  - rewrite Hl. now apply Permutation_map.
  - rewrite Hl, Hv. rewrite por_canton_pie_split.
    rewrite map_app, longitud_set_canton, <- map_app. now rewrite firstn_skipn.
  - rewrite renombrar_otros_split. apply firstn_of_split.
  - unfold top_15, nlargest. rewrite map_map. cbn [snd].
    rewrite <- !firstn_map. now rewrite Hv.
  - intros r Hr. rewrite renombrar_otros_split, skipn_of_split in Hr.
    apply in_map_iff in Hr. destruct Hr as [x [<- _]]. reflexivity.
  - intros Hle.
    assert (Hls : List.length s <= 15) by (rewrite (Permutation_length Hp); exact Hle).
    rewrite renombrar_otros_split.
    rewrite (firstn_all2 _ Hls), (skipn_all2 _ Hls). apply app_nil_r.
Qed.

(** *** The bar chart *)

Lemma NoDup_map_injective {A B : Type} (g : A -> B) (l : list A) (x y : A) :
  NoDup (map g l) -> In x l -> In y l -> g x = g y -> x = y.
Proof.
  induction l as [|a l IH]; intros Hnd Hx Hy E.
  - destruct Hx.
  - simpl in Hnd. inversion Hnd as [|? ? Ha Hnd']; subst.
    destruct Hx as [-> | Hx], Hy as [-> | Hy].
    + reflexivity.
    + exfalso. apply Ha. rewrite E. now apply in_map.
    + exfalso. apply Ha. rewrite <- E. now apply in_map.
    + now apply IH.
Qed.

Lemma flat_map_optional {A B : Type} (b : A -> bool) (g : A -> B) (l : list A) :
  flat_map (fun a => if b a then [g a] else []) l = map g (filter b l).
Proof.
  induction l as [|a l IH]; simpl.
  - reflexivity.
  - destruct (b a); simpl; now rewrite IH.
Qed.

Lemma flat_map_ext_in {A B : Type} (F G : A -> list B) (l : list A) :
  (forall a, In a l -> F a = G a) -> flat_map F l = flat_map G l.
Proof.
  induction l as [|a l IH]; intros H; simpl.
  - reflexivity.
  - rewrite (H a) by now left. f_equal. apply IH. intros x Hx. apply H. now right.
Qed.

Lemma join_of_rows (f : string) (ds T : list Dissolve.t) :
  NoDup (map Dissolve.canton ds) ->
  (forall d, In d T -> In d ds) -> NoDup T ->
  Permutation
    (top_15_por_categoria
       (map (fun d => PorCategoria.mk (Dissolve.canton d) f (Dissolve.area d)
                                      (Dissolve.longitud d)) ds)
       (map (fun d => (Dissolve.canton d, Dissolve.longitud d)) T))
    (map (fun d => Barra.mk (PorCategoria.mk (Dissolve.canton d) f (Dissolve.area d)
                                             (Dissolve.longitud d))
                            (Dissolve.longitud d)) T).
Proof.
  intros Hnd Hsub HT.
  assert (Hinj : forall x y, In x ds -> In y ds ->
                             Dissolve.canton x = Dissolve.canton y -> x = y).
  { intros x y. apply NoDup_map_injective. exact Hnd. }
  unfold top_15_por_categoria. rewrite flat_map_concat_map, map_map.
  rewrite <- flat_map_concat_map. cbn [PorCategoria.canton].
  rewrite (flat_map_ext_in _
             (fun d => if mem String.eqb (Dissolve.canton d) (map Dissolve.canton T)
                       then [Barra.mk (PorCategoria.mk (Dissolve.canton d) f
                                         (Dissolve.area d) (Dissolve.longitud d))
                                      (Dissolve.longitud d)]
                       else [])).
  - rewrite flat_map_optional. apply Permutation_map.
    apply NoDup_Permutation.
    + apply NoDup_filter. now apply NoDup_map_inv in Hnd.
    + exact HT.
    + intros x. rewrite filter_In, (mem_In String.eqb String.eqb_eq). split.
      * intros [Hx Hn]. apply in_map_iff in Hn. destruct Hn as [y [E Hy]].
        assert (y = x) by (apply Hinj; auto). now subst.
      * intros Hx. split; [now apply Hsub | now apply in_map].
  - intros d Hd. rewrite filter_map_swap. cbn [fst].
    destruct (mem String.eqb (Dissolve.canton d) (map Dissolve.canton T)) eqn:Hm.
    + apply (mem_In String.eqb String.eqb_eq) in Hm.
      apply in_map_iff in Hm. destruct Hm as [y [E Hy]].
      assert (y = d) by (apply Hinj; auto). subst y.
      rewrite (filter_singleton _ T d).
      * reflexivity.
      * exact HT.
      * exact Hy.
      * apply String.eqb_refl.
      * intros z Hz Hzc. apply String.eqb_eq in Hzc. apply Hinj; auto.
    + apply (mem_not_In String.eqb String.eqb_eq) in Hm.
      rewrite filter_none; [reflexivity | ].
      intros z Hz. apply String.eqb_neq. intros E. apply Hm.
      rewrite <- E. now apply in_map.
Qed.

Lemma taller_total (a b : Barra.t) : taller a b = true \/ taller b a = true.
Proof.
  unfold taller, num_leb.
  destruct (Qclt_le_dec (Barra.longitud_canton a) (Barra.longitud_canton b)) as [H | H].
  - right. apply Qle_bool_iff. now apply Qclt_le_weak.
  - left. now apply Qle_bool_iff.
Qed.

(** X11 (lines 145-148).  The rows of the bar chart of a run are, up to
    their order, the rows of [nlargest(15)]: one bar for each of the top
    15 cantons, its height [longitud] equal to the length of the canton;
    and the bars are ordered by descending length. *)
Theorem X11_bars_are_the_top_15 (filtro_categoria : string)
    (vias : list Via.t) (cantones : list Canton.t) :
  Permutation
    (barras (por_categoria
               (cantones_vias geometry_length intersection
                  (filtrar filtro_categoria vias) cantones))
            (por_canton unary_union
               (cantones_vias geometry_length intersection
                  (filtrar filtro_categoria vias) cantones)))
    (map (fun p => Barra.mk
                     (PorCategoria.mk (Dissolve.canton (PorCanton.row p))
                                      filtro_categoria
                                      (Dissolve.area (PorCanton.row p))
                                      (Dissolve.longitud (PorCanton.row p)))
                     (Dissolve.longitud (PorCanton.row p)))
         (nlargest 15
            (por_canton unary_union
               (cantones_vias geometry_length intersection
                  (filtrar filtro_categoria vias) cantones)))) /\
  Sorted (le taller)
    (barras (por_categoria
               (cantones_vias geometry_length intersection
                  (filtrar filtro_categoria vias) cantones))
            (por_canton unary_union
               (cantones_vias geometry_length intersection
                  (filtrar filtro_categoria vias) cantones))).
Proof.
  split; [ | apply sort_sorted, taller_total].
  unfold barras. eapply perm_trans; [apply sort_perm | ].
  rewrite (por_categoria_of_dissolve filtro_categoria)
    by apply cantones_vias_categoria.
  set (cv := cantones_vias geometry_length intersection
               (filtrar filtro_categoria vias) cantones).
  set (pc := por_canton unary_union cv).
  assert (Hrow : forall p, In p pc -> In (PorCanton.row p) (dissolve unary_union cv)).
  { intros p Hp. now apply por_canton_In in Hp. }
  assert (Hsub : forall p, In p (nlargest 15 pc) -> In p pc).
  { intros p Hp. unfold nlargest in Hp. apply In_firstn in Hp.
    apply (Permutation_in p (sort_perm longer pc)). exact Hp. }
  assert (Hnames : NoDup (map Dissolve.canton (dissolve unary_union cv))).
  { rewrite dissolve_cantones. apply sort_NoDup, unique_NoDup, String.eqb_eq. }
  assert (HT : NoDup (map PorCanton.row (nlargest 15 pc))).
  { apply (NoDup_map_inv Dissolve.canton). rewrite map_map.
    unfold nlargest. rewrite <- firstn_map. apply NoDup_firstn.
    apply (Permutation_NoDup
             (Permutation_map _ (Permutation_sym (sort_perm longer pc)))).
    unfold pc. rewrite por_canton_cantones.
    apply sort_NoDup, unique_NoDup, String.eqb_eq. }
  assert (Htop : top_15 pc =
                 map (fun d => (Dissolve.canton d, Dissolve.longitud d))
                     (map PorCanton.row (nlargest 15 pc))).
  { unfold top_15. now rewrite map_map. }
  rewrite Htop.
  eapply perm_trans.
  - apply join_of_rows; [exact Hnames | | exact HT].
    intros d Hd. apply in_map_iff in Hd. destruct Hd as [p [<- Hp]].
    apply Hrow, Hsub, Hp.
  - rewrite map_map. apply Permutation_refl.
Qed.

(** *** The density of a canton *)

Lemma overlay_of_canton (name : string) (vias : list Via.t) (cantones : list Canton.t) :
  overlay intersection vias
          (filter (fun c => (Canton.canton c =? name)%string) cantones) =
  filter (fun r => (Overlay.canton r =? name)%string)
         (overlay intersection vias cantones).
Proof.
  unfold overlay. induction vias as [|v vias IH]; simpl.
  - reflexivity.
  - rewrite filter_app, IH. f_equal. apply flat_map_filter.
    intros c r Hr.
    destruct (intersection (Via.geometry v) (Canton.geometry c)); [ | destruct Hr].
    destruct Hr as [<- | []]. reflexivity.
Qed.

(** The rows of a canton name come from the canton features of that
    name alone. *)
Lemma group_of_canton (name : string) (vias : list Via.t) (cantones : list Canton.t) :
  group_of String.eqb canton_of name
           (cantones_vias geometry_length intersection vias cantones) =
  cantones_vias geometry_length intersection vias
                (filter (fun c => (Canton.canton c =? name)%string) cantones).
Proof.
  unfold group_of, cantones_vias, add_longitud.
  rewrite overlay_of_canton, filter_map_swap. reflexivity.
Qed.

(** X12 (lines 79, 100-116, 184).  Where canton names are not repeated
    in the canton layer, a canton feature that no road intersects has no
    row in [por_canton]; a feature that some road intersects has the row
    made of its own name, id and area, of the sum of the lengths of its
    own intersections and of that sum over its area, and the choropleth
    data pairs its id with that density. *)
Theorem X12_density_of_a_canton
    (vias : list Via.t) (cantones : list Canton.t) (c : Canton.t) :
  NoDup (map Canton.canton cantones) ->
  In c cantones ->
  (cantones_vias geometry_length intersection vias [c] = [] ->
   forall p,
     In p (por_canton unary_union
             (cantones_vias geometry_length intersection vias cantones)) ->
     Dissolve.canton (PorCanton.row p) <> Canton.canton c) /\
  (cantones_vias geometry_length intersection vias [c] <> [] ->
   In (PorCanton.mk
         (Dissolve.mk (Canton.canton c)
            (unary_union
               (map (fun r => Overlay.geometry (CantonVia.row r))
                    (cantones_vias geometry_length intersection vias [c])))
            (Canton.id c) (Canton.area c)
            (sum (map CantonVia.longitud
                      (cantones_vias geometry_length intersection vias [c]))))
         (sum (map CantonVia.longitud
                   (cantones_vias geometry_length intersection vias [c]))
          / Canton.area c)%Qc)
      (por_canton unary_union
         (cantones_vias geometry_length intersection vias cantones)) /\
   In (Canton.id c,
       (sum (map CantonVia.longitud
                 (cantones_vias geometry_length intersection vias [c]))
        / Canton.area c)%Qc)
      (datos_coropletas
         (por_canton unary_union
            (cantones_vias geometry_length intersection vias cantones)))).
Proof.
  intros Hnd Hc.
  assert (Hone : filter (fun y => (Canton.canton y =? Canton.canton c)%string) cantones
                 = [c]).
  { apply filter_singleton.
    - now apply NoDup_map_inv in Hnd.
    - exact Hc.
    - apply String.eqb_refl.
    - intros y Hy E. apply String.eqb_eq in E.
      now apply (NoDup_map_injective Canton.canton cantones). }
  assert (Hgrp : group_of String.eqb canton_of (Canton.canton c)
                   (cantones_vias geometry_length intersection vias cantones) =
                 cantones_vias geometry_length intersection vias [c]).
  { rewrite group_of_canton, Hone. reflexivity. }
  split.
  - intros Hnil p Hp E. apply por_canton_In in Hp. destruct Hp as [Hd _].
    apply dissolve_In in Hd. destruct Hd as [x [rest [Hg _]]].
    rewrite E, Hgrp, Hnil in Hg. discriminate Hg.
  - intros Hne.
    destruct (cantones_vias geometry_length intersection vias [c]) as [|x rest] eqn:Hrows;
      [congruence | ].
    assert (Hx : In x (cantones_vias geometry_length intersection vias [c])).
    { rewrite Hrows. now left. }
    apply cantones_vias_In in Hx.
    destruct Hx as [v [c' [g [_ [[<- | []] [_ Hxeq]]]]]].
    assert (Hin : In (PorCanton.mk
                        (Dissolve.mk (Canton.canton c)
                           (unary_union
                              (map (fun r => Overlay.geometry (CantonVia.row r))
                                   (x :: rest)))
                           (Canton.id c) (Canton.area c)
                           (sum (map CantonVia.longitud (x :: rest))))
                        (sum (map CantonVia.longitud (x :: rest)) / Canton.area c)%Qc)
                     (por_canton unary_union
                        (cantones_vias geometry_length intersection vias cantones))).
    { apply por_canton_In. cbn [PorCanton.row PorCanton.densidad
                                 Dissolve.longitud Dissolve.area].
      split; [ | reflexivity].
      apply dissolve_In. exists x, rest. cbn [Dissolve.canton].
      split; [exact Hgrp | ].
      assert (E1 : Overlay.canton (CantonVia.row x) = Canton.canton c)
        by (rewrite Hxeq; reflexivity).
      assert (E2 : Overlay.id (CantonVia.row x) = Canton.id c)
        by (rewrite Hxeq; reflexivity).
      assert (E3 : Overlay.area (CantonVia.row x) = Canton.area c)
        by (rewrite Hxeq; reflexivity).
      rewrite E1, E2, E3. reflexivity. }
    split; [exact Hin | ].
    unfold datos_coropletas. apply in_map_iff.
    eexists. split; [ | exact Hin]. reflexivity.
Qed.

End Extras.

(** * Further runs on the small maps *)

Module Corridas2.
Import Ejemplo.

(** The table of the AUTOPISTA run: the km of each canton (here shown in
    m) and its density. *)
Example tabla_autopista :
  match correr fs 0 with
  | inr s =>
      (fst (s_tabla s),
       map (fun t => (Tabla.canton t,
                      map (fun v => match v with
                                    | Num x => Some (fraccion (x * m_per_km))
                                    | _ => None
                                    end) (Tabla.valores t),
                      fraccion (Tabla.densidad t)))
           (snd (s_tabla s)))
  | inl _ => ([], [])
  end =
  (["AUTOPISTA"; "densidad"],
   [("A", [Some 1%Q], 1000%Q); ("B", [Some 3%Q], 1500%Q)]).
Proof. vm_compute. reflexivity. Qed.

(** The bars of the AUTOPISTA run: canton B first, then canton A. *)
Example barras_autopista :
  map (fun b => (PorCategoria.canton (Barra.fila b),
                 fraccion (PorCategoria.longitud (Barra.fila b) * m_per_km),
                 fraccion (Barra.longitud_canton b * m_per_km)))
      (barras (por_categoria cv) (por_canton Plano.unary_union cv)) =
  [("B", 3%Q, 3%Q); ("A", 1%Q, 1%Q)].
Proof. vm_compute. reflexivity. Qed.

Example coropletas_autopista :
  map (fun e => (fst e, fraccion (snd e)))
      (datos_coropletas (por_canton Plano.unary_union cv)) =
  [("101", 1000%Q); ("102", 1500%Q)].
Proof. vm_compute. reflexivity. Qed.

(** X4 on the sample overlay of the AUTOPISTA roads. *)
Lemma X4_witness :
  Permutation
    (flat_map (fun p => group_of String.eqb canton_of
                          (Dissolve.canton (PorCanton.row p)) cv)
              (por_canton Plano.unary_union cv))
    cv.
Proof.
  exact (proj1 (X4_aggregates_partition_the_rows Plano.unary_union cv)).
Defined.


(** Sixteen cantons with a tie across rank 15: the arrangement that puts
    canton Z before canton B names Z in the pie, where [top_15] has B. *)
Example pastel_con_empate :
  map (fun r => Dissolve.canton (PorCanton.row r))
      (skipn 14 (renombrar_otros empatados_al_reves)) = ["Z"; otros] /\
  map fst (skipn 14 (top_15 empatados)) = ["B"].
Proof. vm_compute. split; reflexivity. Qed.

(** X10 on the sixteen cantons, for the arrangement with Z before B. *)
Lemma X10_witness :
  firstn 15 (renombrar_otros empatados_al_reves) = firstn 15 empatados_al_reves /\
  map (fun r => Dissolve.longitud (PorCanton.row r)) (firstn 15 empatados_al_reves) =
    map snd (top_15 empatados).
Proof.
  assert (Hp : Permutation empatados_al_reves empatados).
  { apply Permutation_app_head, perm_swap. }
  assert (Hs : Sorted (le longer) empatados_al_reves).
  { unfold empatados_al_reves, catorce. cbn [seq map rev app].
    repeat (constructor; try (vm_compute; reflexivity)). }
  destruct (X10_pie_keeps_every_length empatados empatados_al_reves Hp Hs)
    as [_ [_ [_ [H1 [H2 _]]]]].
  split; [exact H1 | exact H2].
Defined.

(** X8 on the sample roads and the same roads listed backwards and then
    once more. *)
Lemma X8_witness :
  lista_categorias vias = lista_categorias (rev vias ++ vias).
Proof.
  apply X8_options_depend_on_the_set_of_categories.
  intros c. vm_compute. tauto.
Defined.

(** X12 at canton B of the sample map, for the AUTOPISTA roads. *)
Lemma X12_witness :
  In ("102",
      (sum (map CantonVia.longitud
                (cantones_vias Plano.geometry_length Plano.intersection
                   (filtrar "AUTOPISTA" vias)
                   [Canton.mk "102" "B" "P" (Plano.rect 1 0 3 1)
                      (area_f Plano.geometry_area_perimeter (Plano.rect 1 0 3 1)
                       / m2_per_km2)%Qc]))
       / (area_f Plano.geometry_area_perimeter (Plano.rect 1 0 3 1) / m2_per_km2))%Qc)
     (datos_coropletas (por_canton Plano.unary_union cv)).
Proof.
  refine (proj2 (proj2 (X12_density_of_a_canton
                          Plano.geometry_length Plano.intersection Plano.unary_union
                          (filtrar "AUTOPISTA" vias) cantones
                          (Canton.mk "102" "B" "P" (Plano.rect 1 0 3 1)
                             (area_f Plano.geometry_area_perimeter (Plano.rect 1 0 3 1)
                              / m2_per_km2)%Qc)
                          _ _) _)).
  - vm_compute. constructor.
    + intros [H | []]. discriminate H.
    + constructor; [intros [] | constructor].
  - right. left. reflexivity.
  - vm_compute. discriminate.
Defined.
End Corridas2.
